(** * mongoose-couch: schema-path resolution and document persistence

  A shallow embedding of the persistence core of [lib/model.js] and of the
  cradle collection driver, followed by the properties that the
  specification states about them.

  Conventions.
  - A JavaScript array is a [list (option _)]: [None] is a hole of a sparse
    array, and the length of the list is the array's [length].
  - A JavaScript object that the caller keeps a reference to lives in a
    heap ([gmap loc _]); a reference is a location.
  - A callback-driven operation is a function from the state before the
    call to the state after it; every backend call, lifecycle notification
    and callback invocation is appended to an explicit log. *)

From Stdlib Require Import String Ascii.
From stdpp Require Import gmap strings list fin_maps.

#[local] Set Warnings "-register-all".

(** ** Path Resolver: [Model._getSchema] *)

Module PathResolver.

(** The caster of an array rule.  [instanceofMixed] is the test
    [caster instanceof Types.Mixed]. *)
Record Caster : Type := mkCaster {
  caster_name : string;
  instanceofMixed : bool
}.

(** A casting rule ([SchemaType]) and a schema.  [caster] and [schema] are
    the rule's properties of these names, [None] when the property is
    undefined: an array rule has a caster, an array of embedded documents
    has an embedded schema too.  Schemas are finite trees here; a schema
    that embeds itself is outside the model. *)
Inductive SchemaType : Type :=
| mkSchemaType (name : string) (caster : option Caster)
               (schema : option Schema)
with Schema : Type :=
| mkSchema (paths : list (string * SchemaType)).

Definition name (r : SchemaType) : string :=
  match r with mkSchemaType n _ _ => n end.
Definition caster (r : SchemaType) : option Caster :=
  match r with mkSchemaType _ c _ => c end.
Definition schema (r : SchemaType) : option Schema :=
  match r with mkSchemaType _ _ s => s end.
Definition paths (s : Schema) : list (string * SchemaType) :=
  match s with mkSchema t => t end.

Fixpoint lookup_path (t : list (string * SchemaType)) (k : string)
    : option SchemaType :=
  match t with
  | [] => None
  | (k', r) :: t' => if String.eqb k' k then Some r else lookup_path t' k
  end.

(** Modelled from the spec: [Schema.prototype.path] used as a getter
    ([lib/schema.js] is not part of the sources), "an exact match of path
    against the schema's flat path table". *)
Definition path (s : Schema) (k : string) : option SchemaType :=
  lookup_path (paths s) k.

(** [s.split('.')]: never empty, a separator at either end gives an empty
    segment. *)
Fixpoint split (s : string) : list string :=
  match s with
  | EmptyString => [EmptyString]
  | String c s' =>
      if Ascii.eqb c "."%char then EmptyString :: split s'
      else match split s' with
           | [] => [String c EmptyString]
           | seg :: segs => String c seg :: segs
           end
  end.

(** [parts.join('.')]. *)
Fixpoint join (parts : list string) : string :=
  match parts with
  | [] => EmptyString
  | [seg] => seg
  | seg :: rest => String.append seg (String "."%char (join rest))
  end.

(** What a call returns: a rule, a caster, [undefined], or it throws
    ([schema.path] on an undefined embedded schema).  [OutOfFuel] is the
    model's own: the recursion budget ran out. *)
Inductive outcome : Type :=
| ReturnsRule (r : SchemaType)
| ReturnsCaster (c : Caster)
| ReturnsUndefined
| ThrowsTypeError
| OutOfFuel.

(** The body of [while (p--) { ... }] at one value of [p]; [next] is what
    the remaining iterations give, [recur] the recursive call of
    [search]. *)
Definition body (recur : list string → option Schema → outcome)
    (parts : list string) (s : Schema) (p : nat) (next : outcome)
    : outcome :=
  let trypath := join (take p parts) in
  match path s trypath with
  | Some foundschema =>
      match caster foundschema with
      | Some c =>
          if instanceofMixed c then ReturnsCaster c
          else if negb (p =? length parts) then
            if bool_decide (parts !! p = Some "$"%string)
            then recur (drop (p + 1) parts) (schema foundschema)
            else recur (drop p parts) (schema foundschema)
          else ReturnsRule foundschema
      | None => ReturnsRule foundschema
      end
  | None => next
  end.

(** [var p = parts.length + 1; while (p--) { ... }]: the body runs at
    [p = n - 1], ..., [0], and falling out of the loop returns
    [undefined]. *)
Fixpoint scan (recur : list string → option Schema → outcome)
    (parts : list string) (s : Schema) (n : nat) : outcome :=
  match n with
  | 0 => ReturnsUndefined
  | S p => body recur parts s p (scan recur parts s p)
  end.

(** [search (parts, schema)] with a budget of nested calls; [schema] may be
    undefined, and [schema.path] then throws in the first iteration. *)
Fixpoint search_fuel (fuel : nat) (parts : list string)
    (s : option Schema) : outcome :=
  match s with
  | None => ThrowsTypeError
  | Some s =>
      match fuel with
      | 0 => OutOfFuel
      | S fuel' => scan (search_fuel fuel') parts s (length parts + 1)
      end
  end.

(** Nesting depth of a schema: an upper bound on the recursion depth of
    [search], which only ever recurses into an embedded schema. *)
Fixpoint depth (s : Schema) : nat :=
  match s with
  | mkSchema t =>
      S ((fix table (t : list (string * SchemaType)) : nat :=
            match t with
            | [] => 0
            | (_, mkSchemaType _ _ (Some sub)) :: t' =>
                Nat.max (depth sub) (table t')
            | _ :: t' => table t'
            end) t)
  end.

(** The inner function [search (parts, schema)]: the budget is the depth
    of the schema, which is never used up ([search_total] below). *)
Definition search (parts : list string) (s : Schema) : outcome :=
  search_fuel (depth s) parts (Some s).

(** [Model._getSchema], with [this.schema] as an argument. *)
Definition _getSchema (s : Schema) (p : string) : outcome :=
  match path s p with
  | Some pathschema => ReturnsRule pathschema
  | None => search (split p) s
  end.

(** The recursive call as the source makes it: [search] on the embedded
    schema, a [TypeError] when there is none. *)
Definition search_embedded (parts : list string) (s : option Schema)
    : outcome :=
  match s with
  | None => ThrowsTypeError
  | Some sub => search parts sub
  end.

(** A path segment that holds no separator. *)
Definition no_dot (seg : string) : Prop :=
  ∀ a, In a (list_ascii_of_string seg) → a ≠ "."%char.

(** Schemas of any nesting depth, to state the resolver's behaviour on
    positional paths: [array_of n sub] is an array-of-documents rule,
    [nested [f1; ...; fk] leaf] the schema whose field [f1] is an array of
    documents whose field [f2] is ... an array of documents of schema
    [leaf], and [positional [f1; ...; fk] tail] the segments
    [f1.$. ... .fk.$.tail]. *)
Definition array_of (n : string) (sub : Schema) : SchemaType :=
  mkSchemaType n (Some (mkCaster n false)) (Some sub).

Fixpoint nested (fields : list string) (leaf : Schema) : Schema :=
  match fields with
  | [] => leaf
  | f :: fields' => mkSchema [(f, array_of f (nested fields' leaf))]
  end.

Fixpoint positional (fields : list string) (tail : list string)
    : list string :=
  match fields with
  | [] => tail
  | f :: fields' => f :: "$"%string :: positional fields' tail
  end.

(** A blog-post schema to evaluate the resolver on: [comments] is an array
    of documents whose [replies] is an array of documents with a [title];
    [tags] is an array of Mixed. *)
Definition titleRule : SchemaType := mkSchemaType "title" None None.
Definition replySchema : Schema := mkSchema [("title"%string, titleRule)].
Definition commentSchema : Schema :=
  mkSchema [("body"%string, mkSchemaType "body" None None);
            ("replies"%string, array_of "replies" replySchema)].
Definition mixedCaster : Caster := mkCaster "tags:Mixed" true.
Definition tagsRule : SchemaType :=
  mkSchemaType "tags" (Some mixedCaster) None.
Definition postSchema : Schema :=
  mkSchema [("tags"%string, tagsRule);
            ("comments"%string, array_of "comments" commentSchema)].

(** The account schema of the repository's example script, reduced to its
    array of strings: [roles] has a caster and no embedded schema. *)
Definition rolesRule : SchemaType :=
  mkSchemaType "roles" (Some (mkCaster "String" false)) None.
Definition rolesSchema : Schema := mkSchema [("roles"%string, rolesRule)].

End PathResolver.

(** ** Result Reassembler: [assignRawDocsToIdStructure] *)

Module Reassembler.

(** The values that occur in an id structure: requested ids, nested arrays
    of them and, once reassembled, documents.  An array is a tree here: the
    same array object occurring twice in one structure is outside the
    model. *)
Inductive value : Type :=
| VUndefined
| VNull
| VStr (s : string)
| VDoc (_id : value) (body : nat)
| VArr (elems : list (option value)).

(** A found record: an object with an [_id]; [body] stands for the rest of
    the record and tells two records with the same id apart. *)
Record doc : Type := Doc { _id : value; body : nat }.

Definition of_doc (d : doc) : value := VDoc (_id d) (body d).

Fixpoint join_comma (l : list string) : string :=
  match l with
  | [] => EmptyString
  | [x] => x
  | x :: rest => String.append x (String ","%char (join_comma rest))
  end.

(** [String(v)]. *)
Fixpoint ToString (v : value) : string :=
  match v with
  | VUndefined => "undefined"
  | VNull => "null"
  | VStr s => s
  | VDoc _ _ => "[object Object]"
  | VArr l =>
      join_comma
        (map (fun o => match o with
                       | None | Some VUndefined | Some VNull => EmptyString
                       | Some w => ToString w
                       end) l)
  end.

(** [a[i]] read: a hole, like an index past the end, reads [undefined]. *)
Definition get (a : list (option value)) (i : nat) : value :=
  match a !! i with
  | Some (Some v) => v
  | _ => VUndefined
  end.

(** [a.push(v)]. *)
Definition push (a : list (option value)) (v : value) : list (option value) :=
  a ++ [Some v].

(** [a[i] = v]: past the end the array grows, leaving holes. *)
Definition assign_at (a : list (option value)) (i : nat) (v : value)
    : list (option value) :=
  if i <? length a then <[i := Some v]> a
  else a ++ replicate (i - length a) None ++ [Some v].

(** [for (f = 0; f < vals.length; ++f) if (sid == String(vals[f]._id)) ...
    break]: the first record whose id stringifies to [sid], with its index
    ([f] is the index of the head of [vals]). *)
Fixpoint first_match (sid : string) (vals : list doc) (f : nat)
    : option (nat * doc) :=
  match vals with
  | [] => None
  | d :: vals' =>
      if String.eqb sid (ToString (_id d)) then Some (f, d)
      else first_match sid vals' (S f)
  end.

(** One iteration of the outer [for] loop, at index [i] with element [o];
    [recur] is the recursive call on a nested array, whose result is the
    nested array's new content. *)
Definition step (recur : value → value) (vals : list doc)
    (sorting recursed : bool) (i : nat) (o : option value)
    (newOrder : list (option value)) : list (option value) :=
  match o with
  | Some (VArr _ as id) => push newOrder (recur id)
  | _ =>
      let id := match o with Some v => v | None => VUndefined end in
      if match id with VNull => negb sorting | _ => false end
      then push newOrder id
      else
        let sid := ToString id in
        if recursed then
          match first_match sid vals 0 with
          | Some (f, d) =>
              if sorting then assign_at newOrder f (of_doc d)
              else push newOrder (of_doc d)
          | None => push newOrder id
          end
        else
          assign_at newOrder i
            match first_match sid vals 0 with
            | Some (_, d) => of_doc d
            | None => VNull
            end
  end.

Fixpoint loop (recur : value → value) (vals : list doc)
    (sorting recursed : bool) (rawIds : list (option value)) (i : nat)
    (newOrder : list (option value)) : list (option value) :=
  match rawIds with
  | [] => newOrder
  | o :: rest =>
      loop recur vals sorting recursed rest (S i)
        (step recur vals sorting recursed i o newOrder)
  end.

(** [rawIds.length = 0; newOrder.forEach(function (doc, i) { rawIds[i] =
    doc; })]: [forEach] passes over the holes of [newOrder]. *)
Fixpoint forEach_assign (newOrder : list (option value)) (i : nat)
    (rawIds : list (option value)) : list (option value) :=
  match newOrder with
  | [] => rawIds
  | None :: rest => forEach_assign rest (S i) rawIds
  | Some v :: rest => forEach_assign rest (S i) (assign_at rawIds i v)
  end.

(** The function body, given what the recursive call does. *)
Definition reassemble (recur : value → value) (rawIds : list (option value))
    (vals : list doc) (sort recursed : bool) : list (option value) :=
  let sorting := sort && (1 <? length rawIds) in
  forEach_assign (loop recur vals sorting recursed rawIds 0 []) 0 [].

(** The recursive call [assignRawDocsToIdStructure(id, vals, options, true)]
    on a nested array [id]: the array with its new content. *)
Fixpoint reassemble_nested (vals : list doc) (sort : bool) (id : value)
    : value :=
  match id with
  | VArr sub => VArr (reassemble (reassemble_nested vals sort) sub vals sort true)
  | _ => id
  end.

(** [assignRawDocsToIdStructure(rawIds, vals, options, recursed)]: the
    content of [rawIds] when the call returns; [sort] is the truthiness of
    [options.sort]. *)
Definition assignRawDocsToIdStructure (rawIds : list (option value))
    (vals : list doc) (sort recursed : bool) : list (option value) :=
  reassemble (reassemble_nested vals sort) rawIds vals sort recursed.

(** [Array.isArray(v)]. *)
Definition isArray (v : value) : bool :=
  match v with VArr _ => true | _ => false end.

(** The records and ids of the specification's examples. *)
Definition docX : doc := Doc (VStr "x") 1.
Definition docY : doc := Doc (VStr "y") 2.
Definition idX : option value := Some (VStr "x").
Definition idY : option value := Some (VStr "y").

(** What the reassembled structure holds in the slot of a requested
    element.  [found_or vals miss id] is the first found record whose id
    stringifies like [id], else [miss]. *)
Definition found_or (vals : list doc) (miss : value) (id : value) : value :=
  match first_match (ToString id) vals 0 with
  | Some (_, d) => of_doc d
  | None => miss
  end.

(** Find-one: a nested array is reassembled in place, [null] stays [null]
    unless a sort order is in force, and any other id gives its first
    match or [null]. *)
Definition one_slot (vals : list doc) (sort sorting : bool)
    (o : option value) : value :=
  match o with
  | Some (VArr _ as id) => reassemble_nested vals sort id
  | Some VNull => if sorting then found_or vals VNull VNull else VNull
  | Some id => found_or vals VNull id
  | None => found_or vals VNull VUndefined
  end.

(** Find-many without a sort order in force: a nested array is reassembled
    in place, [null] stays, and any other id gives its first match or
    stays as it is. *)
Definition many_slot (vals : list doc) (sort : bool) (o : option value)
    : value :=
  match o with
  | Some (VArr _ as id) => reassemble_nested vals sort id
  | Some VNull => VNull
  | Some id => found_or vals id id
  | None => found_or vals VUndefined VUndefined
  end.

End Reassembler.

(** ** Document state machine: [save], [handleSave] and [remove] *)

Module Lifecycle.

Definition error : Type := string.

(** A caller's completion function, by identity. *)
Definition callback : Type := nat.

(** What a completion function is called with: an error, or none. *)
Inductive outcome : Type :=
| Failed (err : error)
| Completed.

(** Modelled from the spec: the promise of [lib/promise.js] (not part of the
    sources), "a single future/result abstraction per operation plus an
    explicit multi-waiter attachment list"; "on completion all attached
    callbacks fire in registration order".  [emitted] is the resolution,
    once there is one. *)
Record Promise : Type := mkPromise {
  waiters : list callback;
  emitted : option outcome
}.

(** What the outside observes, in order: backend calls (each carries the
    promise its completion closure holds), lifecycle notifications, and
    calls of the callers' completion functions. *)
Inductive event : Type :=
| CollectionInsert (complete : nat)
| CollectionRemove (_id _rev : option string) (complete : nat)
| EmitIsNew (flag : bool)
| EmitSave
| EmitRemove
| Called (fn : callback) (o : outcome).

(** An entity with the promises its operations created.  [inserting] and
    [removing] are [this.$__.inserting] (undefined reads [false]) and
    [this.$__.removing] (a reference into [promises]). *)
Record Document : Type := mkDocument {
  isNew : bool;
  inserting : bool;
  removing : option nat;
  _id : option string;
  _rev : option string;
  dirtyPaths : list string;
  promises : list Promise;
  trace : list event
}.

Definition log (evs : list event) (d : Document) : Document :=
  mkDocument (isNew d) (inserting d) (removing d) (_id d) (_rev d)
    (dirtyPaths d) (promises d) (trace d ++ evs).

Definition set_isNew (b : bool) (d : Document) : Document :=
  mkDocument b (inserting d) (removing d) (_id d) (_rev d)
    (dirtyPaths d) (promises d) (trace d).

Definition set_inserting (b : bool) (d : Document) : Document :=
  mkDocument (isNew d) b (removing d) (_id d) (_rev d)
    (dirtyPaths d) (promises d) (trace d).

Definition set_removing (r : option nat) (d : Document) : Document :=
  mkDocument (isNew d) (inserting d) r (_id d) (_rev d)
    (dirtyPaths d) (promises d) (trace d).

Definition set_id_rev (i r : option string) (d : Document) : Document :=
  mkDocument (isNew d) (inserting d) (removing d) i r
    (dirtyPaths d) (promises d) (trace d).

Definition set_promises (ps : list Promise) (d : Document) : Document :=
  mkDocument (isNew d) (inserting d) (removing d) (_id d) (_rev d)
    (dirtyPaths d) ps (trace d).

(** Modelled from the spec: [Document.prototype._reset] ([lib/document.js]
    is not part of the sources), which clears the dirty state. *)
Definition _reset (d : Document) : Document :=
  mkDocument (isNew d) (inserting d) (removing d) (_id d) (_rev d)
    [] (promises d) (trace d).

(** [new Promise(fn)]: a fresh promise with [fn] attached; its reference
    is its index. *)
Definition new_Promise (fn : callback) (d : Document) : nat * Document :=
  (length (promises d),
   set_promises (promises d ++ [mkPromise [fn] None]) d).

(** [promise.addBack(fn)]: on a resolved promise [fn] is called at once. *)
Definition addBack (p : nat) (fn : callback) (d : Document) : Document :=
  match promises d !! p with
  | Some pr =>
      match emitted pr with
      | Some o => log [Called fn o] d
      | None =>
          set_promises
            (<[p := mkPromise (waiters pr ++ [fn]) None]> (promises d)) d
      end
  | None => d
  end.

(** [promise.error(err)] and [promise.complete()]: the first resolution
    calls every attached function, in registration order; a later one is
    ignored. *)
Definition resolve (p : nat) (o : outcome) (d : Document) : Document :=
  match promises d !! p with
  | Some pr =>
      match emitted pr with
      | Some _ => d
      | None =>
          log (map (fun fn => Called fn o) (waiters pr))
            (set_promises
               (<[p := mkPromise (waiters pr) (Some o)]> (promises d)) d)
      end
  | None => d
  end.

(** The answer of the backend to an insert or update: an error, or the
    identifier and revision it assigned. *)
Inductive save_result : Type :=
| SaveError (err : error)
| SaveOk (id rev : string).

(** The completion closure [handleSave(promise, self)], called with the
    backend's answer. *)
Definition handleSave (promise : nat) (r : save_result) (self : Document)
    : Document :=
  match r with
  | SaveError err =>
      let self :=
        if inserting self
        then log [EmitIsNew true] (set_isNew true self)
        else self in
      resolve promise (Failed err) self
  | SaveOk id rev =>
      let self := set_id_rev (Some id) (Some rev) self in
      let self := log [EmitSave] self in
      resolve promise Completed self
  end.

(** [Model.prototype.save], up to its return: the promise whose completion
    closure the backend holds, and the entity.  The backend answers later,
    through [handleSave]. *)
Definition save (fn : callback) (this : Document) : nat * Document :=
  let '(promise, this) := new_Promise fn this in
  if isNew this then
    let this := log [CollectionInsert promise] this in
    let this := _reset this in
    let this := set_isNew false this in
    let this := log [EmitIsNew false] this in
    (promise, set_inserting true this)
  else
    let this := set_inserting false this in
    let this := log [CollectionInsert promise] this in
    let this := _reset this in
    (promise, log [EmitIsNew false] this).

(** [Model.prototype.remove], up to its return: [None] when the request
    attached to the removal in flight, else the promise whose completion
    closure the backend holds. *)
Definition remove (fn : callback) (this : Document)
    : option nat * Document :=
  match removing this with
  | Some p => (None, addBack p fn this)
  | None =>
      let '(promise, this) := new_Promise fn this in
      let this := set_removing (Some promise) this in
      (Some promise,
       log [CollectionRemove (_id this) (_rev this) promise] this)
  end.

(** The completion closure that [remove] hands to the backend, called with
    the backend's error or none. *)
Definition remove_callback (promise : nat) (err : option error)
    (self : Document) : Document :=
  match err with
  | Some e =>
      let self := resolve promise (Failed e) self in
      set_removing None self
  | None =>
      let self := log [EmitRemove] self in
      resolve promise Completed self
  end.

(** The backend remove calls in a trace. *)
Definition is_remove_call (ev : event) : bool :=
  match ev with
  | CollectionRemove _ _ _ => true
  | _ => false
  end.

Definition remove_calls (tr : list event) : list event :=
  List.filter is_remove_call tr.

(** What a caller's function was called with, in order. *)
Definition outcomes_of (fn : callback) (tr : list event) : list outcome :=
  omap (fun ev => match ev with
                  | Called fn' o => if decide (fn' = fn) then Some o else None
                  | _ => None
                  end) tr.

(** Requests made one after the other, no backend answer in between. *)
Definition remove_all (fns : list callback) (d : Document) : Document :=
  foldl (fun d fn => (remove fn d).2) d fns.

Definition outcome_of (err : option error) : outcome :=
  match err with Some e => Failed e | None => Completed end.

(** A fresh entity, as a caller constructs it. *)
Definition fresh : Document :=
  mkDocument true false None None None [] [] [].

(** An entity as hydrated from a stored record. *)
Definition stored : Document :=
  mkDocument false false None (Some "doc-1"%string) (Some "1-abc"%string)
    [] [] [].

End Lifecycle.

(** ** Index Sequencer: [Model.ensureIndexes] *)

Module IndexSequencer.

Definition error : Type := string.
Definition callback : Type := nat.

(** The value of an option of an index or of the schema. *)
Inductive setting : Type :=
| Undefined
| Flag (b : bool)
| Text (s : string).

(** An index specification [[keys, options]]; the options are an object
    used as a map. *)
Record index : Type := mkIndex {
  keys : string;
  options : gmap string setting
}.

(** What the outside observes, in order: [collection.ensureIndex] called,
    the backend calling back (with its error or none), the ['index']
    notification, the caller's handler called, the caller's handler
    scheduled with [process.nextTick]. *)
Inductive event : Type :=
| EnsureIndex (keys : string) (options : gmap string setting)
| Acknowledged (err : option error)
| EmitIndex (err : option error)
| Callback (cb : callback) (err : option error)
| NextTick (cb : callback).

(** [done(err)]: [self.emit('index', err); cb && cb(err)]. *)
Definition done (cb : option callback) (err : option error) : list event :=
  EmitIndex err
  :: match cb with Some f => [Callback f err] | None => [] end.

(** [create()], against the answers the backend will give, in order:
    [indexes.shift()], then [done()] on an empty queue, else the backend
    call; its callback, when the backend answers, is [done(err)] on an
    error and [create()] otherwise.  With no answer left the backend has
    not called back and nothing further happens. *)
Fixpoint create (safe : setting) (cb : option callback)
    (indexes : list index) (answers : list (option error)) : list event :=
  match indexes with
  | [] => done cb None
  | index :: indexes' =>
      EnsureIndex (keys index) (<["safe"%string := safe]> (options index))
      :: match answers with
         | [] => []
         | Some err :: _ => Acknowledged (Some err) :: done cb (Some err)
         | None :: answers' =>
             Acknowledged None :: create safe cb indexes' answers'
         end
  end.

(** [Model.ensureIndexes(cb)], with [this.schema.indexes()] and
    [this.schema.options.safe] as arguments. *)
Definition ensureIndexes (safe : setting) (cb : option callback)
    (indexes : list index) (answers : list (option error)) : list event :=
  match indexes with
  | [] => match cb with Some f => [NextTick f] | None => [] end
  | _ => create safe cb indexes answers
  end.

(** The backend calls of a trace, in order. *)
Definition issued (tr : list event) : list (string * gmap string setting) :=
  omap (fun ev => match ev with
                  | EnsureIndex k o => Some (k, o)
                  | _ => None
                  end) tr.

(** The call the sequencer makes for a specification. *)
Definition call_of (safe : setting) (i : index)
    : string * gmap string setting :=
  (keys i, <["safe"%string := safe]> (options i)).

(** No backend call is issued while another awaits its answer:
    [outstanding] says whether a call is pending before the trace. *)
Fixpoint one_at_a_time (outstanding : bool) (tr : list event) : bool :=
  match tr with
  | [] => true
  | EnsureIndex _ _ :: tr' => negb outstanding && one_at_a_time true tr'
  | Acknowledged _ :: tr' => outstanding && one_at_a_time false tr'
  | _ :: tr' => one_at_a_time outstanding tr'
  end.

(** The ['index'] notifications and the handler calls of a trace. *)
Definition completions (tr : list event) : list event :=
  List.filter (fun ev => match ev with
                         | EmitIndex _ | Callback _ _ | NextTick _ => true
                         | _ => false
                         end) tr.

(** Three index specifications. *)
Definition three_specs : list index :=
  [mkIndex "slug" ∅; mkIndex "email" ∅; mkIndex "apiKey" ∅].

End IndexSequencer.

(** ** Hydrator: [Model.hydrate] and [hydrate] *)

Module Hydrator.

Definition error : Type := string.

(** A raw record of the backend. *)
Abbreviation RawRecord := (gmap string string).

(** The entity [new self(docs[i], true)] initialised from a record. *)
Record Entity : Type := mkEntity { source : RawRecord }.

(** The first argument of the hydrator: one record, or an array of them. *)
Inductive input : Type :=
| One (doc : RawRecord)
| Many (docs : list RawRecord).

(** The second argument of a callback call: [null], one entity, or an array
    of entities. *)
Inductive result : Type :=
| Null
| Single (e : Entity)
| Sequence (es : list Entity).

(** A call [callback(err, result)]. *)
Definition call : Type := option error * result.

(** Modelled from the spec: [Document.prototype.init] ([lib/document.js] is
    not part of the sources): "each record is independently constructed and
    initialized ... and initialization may fail per-record".  The
    initialisation of a record calls its callback with an error or with
    none, either before [init] returns or at some later turn. *)
Inductive moment : Type :=
| DuringLoop
| Later.

Definition initializer : Type := RawRecord → moment * option error.

(** The calls [callback(err, null)] that the [init] callbacks of the
    records make at moment [m], in the order of the records; a successful
    initialisation only runs [--count || arr], which has no effect. *)
Definition init_errors (init : initializer) (m : moment)
    (docs : list RawRecord) : list call :=
  omap (fun doc =>
          match init doc with
          | (m', Some err) =>
              match m, m' with
              | DuringLoop, DuringLoop | Later, Later => Some (Some err, Null)
              | _, _ => None
              end
          | (_, None) => None
          end) docs.

(** The calls of the caller's callback made by the body shared by both
    hydrators: those of the loop, the call [callback(null, delivered)]
    after the loop, and those of initialisations that answer later. *)
Definition hydrate_calls (init : initializer) (docs : list RawRecord)
    (delivered : result) : list call :=
  init_errors init DuringLoop docs
  ++ [(None, delivered)]
  ++ init_errors init Later docs.

(** [arr[0]] of the array built by the loop. *)
Definition first_of (arr : list Entity) : result :=
  match arr with
  | e :: _ => Single e
  | [] => Null
  end.

(** [Model.hydrate] (the driver-based model): [docArray] remembers
    whether the argument was an array. *)
Definition Model_hydrate (init : initializer) (docs : input) : list call :=
  let docArray := match docs with Many _ => true | One _ => false end in
  let docs := match docs with Many ds => ds | One d => [d] end in
  let arr := mkEntity <$> docs in
  hydrate_calls init docs (if docArray then Sequence arr else first_of arr).

(** [hydrate] (the cradle-based model): the argument is replaced by an
    array before [Array.isArray(docs)] is asked again for the result. *)
Definition hydrate (init : initializer) (docs : input) : list call :=
  let docs := match docs with Many ds => Many ds | One d => Many [d] end in
  let elems := match docs with Many ds => ds | One d => [d] end in
  let arr := mkEntity <$> elems in
  hydrate_calls init elems
    (match docs with Many _ => Sequence arr | One _ => first_of arr end).

(** Whether the initialisation of a record fails. *)
Definition fails (init : initializer) (doc : RawRecord) : bool :=
  match init doc with
  | (_, Some _) => true
  | (_, None) => false
  end.

(** The calls that deliver entities. *)
Definition deliveries (calls : list call) : list result :=
  omap (fun c => match c with
                 | (None, r) => Some r
                 | (Some _, _) => None
                 end) calls.

(** Two records, and an initialisation that fails on the first of them. *)
Definition rec1 : RawRecord := {["_id"%string := "1"%string]}.
Definition rec2 : RawRecord := {["_id"%string := "2"%string]}.

Definition init_ok : initializer := fun _ => (DuringLoop, None).

Definition init_rejects_rec1 : initializer :=
  fun doc =>
    if decide (doc = rec1) then (DuringLoop, Some "cast failed"%string)
    else (DuringLoop, None).

End Hydrator.

(** ** Bulk remove: the cradle collection driver *)

Module BulkRemove.

(** Values stored in the fields of a raw document. *)
Inductive value : Type :=
| VUndefined
| VNull
| VBool (b : bool)
| VNum (n : Z)
| VStr (s : string).

Definition loc : Type := positive.

(** A raw document is a JavaScript object used as a map from field names
    to values; the heap holds the objects the caller has references to. *)
Abbreviation heap := (gmap loc (gmap string value)).

(** Calls received by the cradle database handle.  [DbSave] is
    [this.collection.save(docs, callback)]: it carries the references it
    was given and the heap as it was when the call was issued. *)
Inductive db_call : Type :=
| DbSave (docs : list loc) (at_call : heap).

Record world : Type := World {
  objects : heap;
  calls : list db_call
}.

(** [doc._deleted = true], an assignment through the reference [doc]. *)
Definition set_deleted (h : heap) (doc : loc) : heap :=
  alter (fun o => <["_deleted" := VBool true]> o) doc h.

(** [NativeCollection.prototype.bulkRemove]:
      docs.forEach(function (doc) { doc._deleted = true; });
      this.collection.save(docs, callback); *)
Definition bulkRemove (docs : list loc) (w : world) : world :=
  let h := foldl set_deleted (objects w) docs in
  {| objects := h; calls := calls w ++ [DbSave docs h] |}.

(** [Model.remove]: [this.collection.bulkRemove(docs, callback)]. *)
Definition remove (docs : list loc) (w : world) : world :=
  bulkRemove docs w.

(** A heap with two raw documents. *)
Definition two_docs : heap :=
  <[1%positive := {["_id" := VStr "a"]}]>
    (<[2%positive := {["_id" := VStr "b"]}]> ∅).

End BulkRemove.

(** ** Bulk create: [Model.create] *)

Module Creator.

Definition error : Type := string.

Abbreviation RawRecord := (gmap string string).

(** The document [new self(arg)] built from an argument. *)
Record Entity : Type := mkEntity { source : RawRecord }.

(** A call of the caller's function [fn]: [fn(err)] through the promise,
    [fn(null)] for an empty array, [fn(null, doc1, ..., docn)] when every
    document is saved. *)
Inductive call : Type :=
| FnError (err : error)
| FnNull
| FnDocs (docs : list Entity).

(** What the closures passed to [doc.save] share: the counter [count], the
    promise made from [fn] (resolved or not), and the calls of [fn] so
    far. *)
Record state : Type := mkState {
  count : Z;
  emitted : bool;
  calls : list call
}.

(** The function passed to every [doc.save], called with the error of
    that save or with none:
      if (err) return promise.error(err);
      --count || fn.apply(null, docs);
    A promise that is resolved ignores a second [error]. *)
Definition save_callback (docs : list Entity) (st : state)
    (err : option error) : state :=
  match err with
  | Some e =>
      if emitted st then st
      else mkState (count st) true (calls st ++ [FnError e])
  | None =>
      let count := (count st - 1)%Z in
      if (count =? 0)%Z
      then mkState count (emitted st) (calls st ++ [FnDocs docs])
      else mkState count (emitted st) (calls st)
  end.

(** [Model.create] once its arguments are sorted out: [args] is the array
    passed first, or the arguments before the last one, and [fn] the
    callback.  [answers] are the outcomes of the saves in the order in
    which the backend answers them; the result is the calls of [fn]. *)
Definition create (args : list RawRecord) (answers : list (option error))
    : list call :=
  match args with
  | [] => [FnNull]
  | _ =>
      let docs := mkEntity <$> args in
      calls (foldl (save_callback docs)
               (mkState (Z.of_nat (length args)) false []) answers)
  end.

End Creator.

(** ** Finders: the cradle collection driver under [Model.findById],
    [Model.findWithView] and [Model.findOneWithView] *)

Module Finders.
Import Hydrator.

(** The argument [ids] of [findById]: one id, or an array of ids. *)
Inductive ids : Type :=
| OneId (id : string)
| ManyIds (l : list string).

(** The answer of the cradle database to [get] or [view]: an error, or a
    response over whose items [res.forEach] runs, in order. *)
Inductive answer (item : Type) : Type :=
| DbError (err : error)
| DbItems (res : list item).
Arguments DbError {item} err.
Arguments DbItems {item} res.

(** What a driver method calls its callback with: [callback(err)], or
    [callback(null, docs)] with a record, an array of records, or
    [undefined] ([docs[0]] of an empty array). *)
Inductive found : Type :=
| FoundError (err : error)
| FoundUndefined
| Found (docs : input).

(** The array [NativeCollection.prototype.findById] passes to
    [this.collection.get]. *)
Definition get_argument (i : ids) : list string :=
  match i with
  | OneId id => [id]
  | ManyIds l => l
  end.

(** [NativeCollection.prototype.findById], given the answer to [get]. *)
Definition NativeCollection_findById (i : ids) (a : answer RawRecord)
    : found :=
  let idArray := match i with ManyIds _ => true | OneId _ => false end in
  match a with
  | DbError err => FoundError err
  | DbItems res =>
      let docs := foldl (fun docs doc => docs ++ [doc]) [] res in
      if idArray then Found (Many docs)
      else match docs with
           | doc :: _ => Found (One doc)
           | [] => FoundUndefined
           end
  end.

(** A row of a view, of which [findWithView] keeps the [value]. *)
Record row : Type := mkRow { key : string; value : RawRecord }.

(** [NativeCollection.prototype.findWithView], given the answer to
    [view]. *)
Definition NativeCollection_findWithView (a : answer row) : found :=
  match a with
  | DbError err => FoundError err
  | DbItems res =>
      Found (Many (foldl (fun docs doc => docs ++ [value doc]) [] res))
  end.

(** View options, an object used as a map. *)
Abbreviation view_options := (gmap string Z).

(** [NativeCollection.prototype.findOneWithView]: [opts.limit = 1] on the
    object it was given, which is also what [view] is called with; then,
    given the answer, [singleDoc] starts as [{}] and every item replaces
    it. *)
Definition NativeCollection_findOneWithView (opts : view_options)
    (a : answer RawRecord) : view_options * found :=
  (<["limit"%string := 1%Z]> opts,
   match a with
   | DbError err => FoundError err
   | DbItems res => Found (One (foldl (fun _ doc => doc) ∅ res))
   end).

(** A call of the caller's callback by a finder of the model:
    [callback(err)] on an error of the driver, else what [Model.hydrate]
    calls it with.  [HydratesUndefined] stands for [self.hydrate(undefined,
    callback)], which constructs a document from [undefined] and is not
    modelled further. *)
Inductive reported : Type :=
| ReportedError (err : error)
| Hydrated (c : call)
| HydratesUndefined.

(** The body shared by [Model.findById], [Model.findWithView] and
    [Model.findOneWithView]:
      if (err) { return callback(err); }
      self.hydrate(docs, callback); *)
Definition hydrate_found (init : initializer) (f : found) : list reported :=
  match f with
  | FoundError err => [ReportedError err]
  | FoundUndefined => [HydratesUndefined]
  | Found docs => Hydrated <$> Model_hydrate init docs
  end.

Definition Model_findById (init : initializer) (i : ids)
    (a : answer RawRecord) : list reported :=
  hydrate_found init (NativeCollection_findById i a).

Definition Model_findWithView (init : initializer) (a : answer row)
    : list reported :=
  hydrate_found init (NativeCollection_findWithView a).

(** [Model.findOneWithView]: called without options (the callback second)
    it passes a fresh [{}] to the driver. *)
Definition Model_findOneWithView (init : initializer)
    (options : option view_options) (a : answer RawRecord)
    : view_options * list reported :=
  let options := match options with Some o => o | None => ∅ end in
  let '(o, f) := NativeCollection_findOneWithView options a in
  (o, hydrate_found init f).

(** The entities a finder delivers. *)
Definition delivered (rs : list reported) : list result :=
  deliveries (omap (fun r => match r with
                             | Hydrated c => Some c
                             | _ => None
                             end) rs).

End Finders.

(** ** Connection: [lib/connection.js] over the cradle connection
    driver *)

Module Connections.

(** An argument of [open]. *)
Inductive argument : Type :=
| AString (s : string)
| ANumber (n : Z)
| AObject (o : gmap string string)
| AFunction (fn : nat).

Definition is_function (a : option argument) : bool :=
  match a with
  | Some (AFunction _) => true
  | _ => false
  end.

(** [new Collection(name, this, options)]. *)
Record Collection : Type := mkCollection {
  collection_name : string;
  collection_options : gmap string string
}.

(** What the outside observes: a listener called for an event, a callback
    called. *)
Inductive event : Type :=
| Delivered (name : string) (listener : nat)
| CalledBack (fn : nat).

(** A connection.  [db] is the cradle server, present once opened, with the
    options it was made from.  [_events] is the listener table of the
    event emitter, an own property that [on] creates and [emit] reads. *)
Record Connection : Type := mkConnection {
  collections : gmap string Collection;
  models : gmap string nat;
  connectionOpts : option (list argument);
  name : option string;
  db : option (option (list argument));
  _events : option (gmap string (list nat));
  observed : list event
}.

(** [this.emit(name)]: the listeners of the event are called in order; with
    no listener table there is none to call. *)
Definition emit (ev : string) (c : Connection) : Connection :=
  let listeners :=
    match _events c with
    | Some table => default [] (table !! ev)
    | None => []
    end in
  mkConnection (collections c) (models c) (connectionOpts c) (name c) (db c)
    (_events c) (observed c ++ (Delivered ev <$> listeners)).

Definition call_back (callback : option nat) (c : Connection) : Connection :=
  match callback with
  | Some fn =>
      mkConnection (collections c) (models c) (connectionOpts c) (name c)
        (db c) (_events c) (observed c ++ [CalledBack fn])
  | None => c
  end.

(** [Connection.prototype.onOpen]: [callback && callback();
    this.emit('open')]. *)
Definition onOpen (callback : option nat) (c : Connection) : Connection :=
  emit "open" (call_back callback c).

(** [NativeConnection.prototype.doOpen] followed by the function [_open]
    passes to it: the server is made from [this.connectionOpts], and
    [fn()] is called with no error, which leads to [onOpen]. *)
Definition _open (callback : option nat) (c : Connection) : Connection :=
  let c := mkConnection (collections c) (models c) (connectionOpts c)
             (name c) (Some (connectionOpts c)) (_events c) (observed c) in
  onOpen callback c.

Inductive completion : Type :=
| Returns (c : Connection)
| ThrowsTypeError.

(** [Connection.prototype.open]: when the last argument is a function the
    call [arguments.pop()] is made, and [arguments], which is no array,
    has no [pop]. *)
Definition open (arguments : list argument) (c : Connection) : completion :=
  if is_function (last arguments) then ThrowsTypeError
  else
    let c := mkConnection (collections c) (models c) (Some arguments)
               (name c) (db c) (_events c) (observed c) in
    Returns (_open None c).

(** [NativeConnection.prototype.doClose] up to its call of [fn]. *)
Definition doClose (c : Connection) : Connection :=
  mkConnection ∅ ∅ None None None None (observed c).

(** [Connection.prototype.close]: [doClose] calls back with no error, then
    [self.onClose()] emits ['close'] and the callback is called. *)
Definition close (callback : option nat) (c : Connection) : Connection :=
  let c := doClose c in
  let c := emit "close" c in
  call_back callback c.

(** What [this.collections[name]] gives: a cached collection, or a
    property that every object inherits (such as [constructor]). *)
Inductive got : Type :=
| GotCollection (coll : Collection)
| GotInherited (name : string).

(** [Connection.prototype.collection]; [inherited name] says whether
    [name in {}] holds. *)
Definition collection (inherited : string → bool) (n : string)
    (options : gmap string string) (c : Connection) : got * Connection :=
  match collections c !! n with
  | Some coll => (GotCollection coll, c)
  | None =>
      if inherited n then (GotInherited n, c)
      else
        let coll := mkCollection n options in
        (GotCollection coll,
         mkConnection (<[n := coll]> (collections c)) (models c)
           (connectionOpts c) (name c) (db c) (_events c) (observed c))
  end.

(** The listeners of an event, as [emit] finds them. *)
Definition listeners_of (ev : string) (c : Connection) : list nat :=
  match _events c with
  | Some table => default [] (table !! ev)
  | None => []
  end.

End Connections.

(** ** The Mongoose instance: connections of [lib/index.js] *)

Module MongooseInstance.

(** A value passed as a connection: [undefined] or an object, by
    identity. *)
Inductive jsval : Type :=
| Undefined
| Obj (id : nat).

Record Mongoose : Type := mkMongoose {
  connections : list jsval;
  plugins : list (nat * jsval);
  options : gmap string jsval
}.

(** [new Mongoose]: the constructor's [this.createConnection()] has no
    argument and adds no connection. *)
Definition new_Mongoose : Mongoose := mkMongoose [] [] ∅.

(** [Mongoose.prototype.createConnection]; [None] is a call without
    argument.  The value returned is the argument. *)
Definition createConnection (cradleConnection : option jsval) (m : Mongoose)
    : jsval * Mongoose :=
  match cradleConnection with
  | Some c =>
      (c, mkMongoose (connections m ++ [c]) (plugins m) (options m))
  | None => (Undefined, m)
  end.

(** The getter [connection]: [this.connections[0]]. *)
Definition connection (m : Mongoose) : jsval :=
  match connections m with
  | c :: _ => c
  | [] => Undefined
  end.

(** [Mongoose.prototype.connect]: [this.connection = cradleConnection],
    where [connection] is an accessor of the prototype with a getter and no
    setter; outside strict mode the assignment does nothing. *)
Definition connect (cradleConnection : jsval) (m : Mongoose) : Mongoose := m.

(** [Mongoose.prototype.plugin]. *)
Definition plugin (fn : nat) (opts : jsval) (m : Mongoose) : Mongoose :=
  mkMongoose (connections m) (plugins m ++ [(fn, opts)]) (options m).

(** [Mongoose.prototype.set] with two arguments. *)
Definition set (key : string) (v : jsval) (m : Mongoose) : Mongoose :=
  mkMongoose (connections m) (plugins m) (<[key := v]> (options m)).

(** The calls that change a Mongoose instance. *)
Inductive operation : Type :=
| CreateConnection (cradleConnection : option jsval)
| Connect (cradleConnection : jsval)
| Plugin (fn : nat) (opts : jsval)
| Set_ (key : string) (v : jsval).

Definition apply (m : Mongoose) (op : operation) : Mongoose :=
  match op with
  | CreateConnection c => (createConnection c m).2
  | Connect c => connect c m
  | Plugin fn opts => plugin fn opts m
  | Set_ key v => set key v m
  end.

(** The argument of the first [createConnection] call that has one. *)
Fixpoint first_created (ops : list operation) : jsval :=
  match ops with
  | [] => Undefined
  | CreateConnection (Some c) :: _ => c
  | _ :: ops' => first_created ops'
  end.

End MongooseInstance.

(** * Properties *)

Section PathResolverFacts.
Import PathResolver.

(** *** Paths as strings *)

Lemma split_nonempty (s : string) : split s ≠ [].
Proof.
  induction s as [|c s IH]; simpl; [done|].
  destruct (Ascii.eqb c "."); [done|]. by destruct (split s).
Qed.

Lemma split_no_dot (seg : string) : no_dot seg → split seg = [seg].
Proof.
  induction seg as [|c seg IH]; intros Hnd; simpl; [done|].
  destruct (Ascii.eqb_spec c ".") as [->|_].
  - exfalso. apply (Hnd "."%char); [by left|done].
  - rewrite IH; [done|]. intros a Ha. apply Hnd. by right.
Qed.

Lemma split_append_dot (seg rest : string) :
  no_dot seg →
  split (String.append seg (String "." rest)) = seg :: split rest.
Proof.
  induction seg as [|c seg IH]; intros Hnd; simpl; [done|].
  destruct (Ascii.eqb_spec c ".") as [->|_].
  - exfalso. apply (Hnd "."%char); [by left|done].
  - rewrite IH; [done|]. intros a Ha. apply Hnd. by right.
Qed.

(** Splitting undoes joining, for segments that hold no separator. *)
Lemma split_join (parts : list string) :
  parts ≠ [] → Forall no_dot parts → split (join parts) = parts.
Proof.
  induction parts as [|seg rest IH]; intros Hne Hall; [done|].
  apply Forall_cons in Hall as [Hseg Hrest].
  destruct rest as [|seg' rest'].
  - simpl. by apply split_no_dot.
  - change (join (seg :: seg' :: rest'))
      with (String.append seg (String "." (join (seg' :: rest')))).
    rewrite split_append_dot by done. f_equal. by apply IH.
Qed.

(** Joining undoes splitting, always. *)
Lemma join_split (s : string) : join (split s) = s.
Proof.
  induction s as [|c s IH]; simpl; [done|].
  destruct (Ascii.eqb_spec c ".") as [->|_].
  - pose proof (split_nonempty s) as Hne.
    destruct (split s) as [|seg segs]; [done|].
    change (join (EmptyString :: seg :: segs))
      with (String "." (join (seg :: segs))). by rewrite IH.
  - pose proof (split_nonempty s) as Hne.
    destruct (split s) as [|seg segs]; [done|].
    destruct segs as [|seg' segs'].
    + simpl in *. by rewrite IH.
    + change (join (String c seg :: seg' :: segs'))
        with (String c (join (seg :: seg' :: segs'))). by rewrite IH.
Qed.

(** *** The recursion budget *)

Lemma depth_pos (s : Schema) : 0 < depth s.
Proof. destruct s; simpl; lia. Qed.

Lemma depth_lookup (t : list (string * SchemaType)) (k : string)
    (r : SchemaType) (sub : Schema) :
  lookup_path t k = Some r → schema r = Some sub →
  depth sub < depth (mkSchema t).
Proof.
  intros Hl Hs. simpl. apply Nat.lt_succ_r.
  induction t as [|[k' r'] t IH]; [done|].
  simpl in Hl. destruct (String.eqb k' k).
  - injection Hl as ->. destruct r as [n c [sub'|]]; simpl in Hs; [|done].
    injection Hs as ->. lia.
  - specialize (IH Hl). destruct r' as [n c [sub'|]]; lia.
Qed.

Lemma depth_path (s : Schema) (k : string) (r : SchemaType) (sub : Schema) :
  path s k = Some r → schema r = Some sub → depth sub < depth s.
Proof. destruct s as [t]. apply depth_lookup. Qed.

(** Two recursive calls that agree on the embedded schemas of the rules of
    [s] give the same loop. *)
Lemma scan_ext (f g : list string → option Schema → outcome)
    (parts : list string) (s : Schema) (n : nat) :
  (∀ k r parts', path s k = Some r →
     f parts' (schema r) = g parts' (schema r)) →
  scan f parts s n = scan g parts s n.
Proof.
  intros Hfg. induction n as [|p IH]; [done|].
  simpl. unfold body. rewrite IH.
  destruct (path s (join (take p parts))) as [r|] eqn:Hp; [|done].
  destruct (caster r) as [c|]; [|done].
  destruct (instanceofMixed c); [done|].
  destruct (negb (p =? length parts)); [|done].
  case_bool_decide; by apply (Hfg _ _ _ Hp).
Qed.

Lemma search_fuel_enough (f1 f2 : nat) (parts : list string) (s : Schema) :
  depth s ≤ f1 → depth s ≤ f2 →
  search_fuel f1 parts (Some s) = search_fuel f2 parts (Some s).
Proof.
  revert f2 parts s. induction f1 as [|f1 IH]; intros f2 parts s H1 H2.
  - pose proof (depth_pos s). lia.
  - destruct f2 as [|f2]; [pose proof (depth_pos s); lia|].
    simpl. apply scan_ext. intros k r parts' Hp.
    destruct (schema r) as [sub|] eqn:Hs.
    + pose proof (depth_path _ _ _ _ Hp Hs). apply IH; lia.
    + by destruct f1, f2.
Qed.

(** [search] obeys the equation of the source function, free of fuel. *)
Lemma search_unfold (parts : list string) (s : Schema) :
  search parts s = scan search_embedded parts s (length parts + 1).
Proof.
  unfold search. pose proof (depth_pos s).
  destruct (depth s) as [|f] eqn:Hd; [lia|].
  simpl. apply scan_ext. intros k r parts' Hp.
  destruct (schema r) as [sub|] eqn:Hs; simpl.
  - pose proof (depth_path _ _ _ _ Hp Hs).
    unfold search. apply search_fuel_enough; lia.
  - by destruct f.
Qed.

Lemma scan_total (f : list string → option Schema → outcome)
    (parts : list string) (s : Schema) (n : nat) :
  (∀ k r parts', path s k = Some r → f parts' (schema r) ≠ OutOfFuel) →
  scan f parts s n ≠ OutOfFuel.
Proof.
  intros Hf. induction n as [|p IH]; [done|].
  simpl. unfold body.
  destruct (path s (join (take p parts))) as [r|] eqn:Hp; [|done].
  destruct (caster r) as [c|]; [|done].
  destruct (instanceofMixed c); [done|].
  destruct (negb (p =? length parts)); [|done].
  case_bool_decide; by apply (Hf _ _ _ Hp).
Qed.

Lemma search_fuel_total (f : nat) (parts : list string) (s : Schema) :
  depth s ≤ f → search_fuel f parts (Some s) ≠ OutOfFuel.
Proof.
  revert parts s. induction f as [|f IH]; intros parts s Hd.
  - pose proof (depth_pos s). lia.
  - simpl. apply scan_total. intros k r parts' Hp.
    destruct (schema r) as [sub|] eqn:Hs.
    + pose proof (depth_path _ _ _ _ Hp Hs). apply IH. lia.
    + by destruct f.
Qed.

(** The budget [search] runs with is never exhausted: on a finite schema
    the source function always returns or throws. *)
Lemma search_total (parts : list string) (s : Schema) :
  search parts s ≠ OutOfFuel.
Proof. by apply search_fuel_total. Qed.

Lemma getSchema_total (s : Schema) (p : string) :
  _getSchema s p ≠ OutOfFuel.
Proof.
  unfold _getSchema. destruct (path s p); [done|]. apply search_total.
Qed.

(** The loop passes over every prefix length at which the table has no
    entry. *)
Lemma scan_skip (f : list string → option Schema → outcome)
    (parts : list string) (s : Schema) (p n : nat) :
  p ≤ n →
  (∀ q, p ≤ q → q < n → path s (join (take q parts)) = None) →
  scan f parts s n = scan f parts s p.
Proof.
  intros Hle. induction Hle as [|n Hle IH]; intros Hnone; [done|].
  simpl. unfold body. rewrite (Hnone n) by lia.
  apply IH. intros q H1 H2. apply Hnone; lia.
Qed.

(** *** Descent into an array rule *)

(** At the longest prefix the table knows, an array rule of embedded
    documents hands the rest of the path to [search] on the embedded
    schema. *)
Lemma search_descends (s : Schema) (parts : list string) (p : nat)
    (rule : SchemaType) (c : Caster) (sub : Schema) :
  p < length parts →
  (∀ q, p < q → q ≤ length parts → path s (join (take q parts)) = None) →
  path s (join (take p parts)) = Some rule →
  caster rule = Some c → instanceofMixed c = false →
  schema rule = Some sub →
  search parts s =
    search (if bool_decide (parts !! p = Some "$"%string)
            then drop (p + 1) parts else drop p parts) sub.
Proof.
  intros Hp Hlong Hfound Hc Hmixed Hsub.
  rewrite search_unfold.
  rewrite (scan_skip _ _ _ (S p)); [|lia|intros q ? ?; apply Hlong; lia].
  simpl. unfold body. rewrite Hfound, Hc, Hmixed.
  replace (p =? length parts) with false by (symmetry; apply Nat.eqb_neq; lia).
  simpl. rewrite Hsub. by case_bool_decide.
Qed.

(** At the longest prefix the table knows, an array rule whose caster is
    Mixed ends the search with that caster. *)
Lemma search_mixed (s : Schema) (parts : list string) (p : nat)
    (rule : SchemaType) (c : Caster) :
  p ≤ length parts →
  (∀ q, p < q → q ≤ length parts → path s (join (take q parts)) = None) →
  path s (join (take p parts)) = Some rule →
  caster rule = Some c → instanceofMixed c = true →
  search parts s = ReturnsCaster c.
Proof.
  intros Hp Hlong Hfound Hc Hmixed.
  rewrite search_unfold.
  rewrite (scan_skip _ _ _ (S p)); [|lia|intros q ? ?; apply Hlong; lia].
  simpl. unfold body. by rewrite Hfound, Hc, Hmixed.
Qed.

(** A path with more segments than the longest known prefix misses the
    exact-match fast path. *)
Lemma exact_miss (s : Schema) (pathstr : string) (p : nat) :
  p < length (split pathstr) →
  (∀ q, p < q → q ≤ length (split pathstr) →
     path s (join (take q (split pathstr))) = None) →
  path s pathstr = None.
Proof.
  intros Hp Hlong.
  rewrite <- (join_split pathstr) at 1.
  rewrite <- (take_ge (split pathstr) (length (split pathstr))) at 1 by lia.
  apply Hlong; lia.
Qed.

Lemma append_dot_neq (f r : string) :
  String.eqb f (String.append f (String "." r)) = false.
Proof.
  apply String.eqb_neq. induction f as [|a f IH]; simpl; [done|].
  intros Heq. injection Heq as Heq. by apply IH.
Qed.

Ltac no_dot_literal :=
  let a := fresh "a" in
  let Ha := fresh "Ha" in
  intros a Ha; simpl in Ha;
  repeat (destruct Ha as [<-|Ha]; [discriminate|]); destruct Ha.

Lemma no_dot_dollar : no_dot "$".
Proof. no_dot_literal. Qed.

Lemma Forall_no_dot_positional (fields : list string) (k : string) :
  Forall no_dot fields → no_dot k → Forall no_dot (positional fields [k]).
Proof.
  intros Hf Hk. induction Hf as [|f fields Hnd _ IH]; simpl.
  - by apply Forall_cons.
  - apply Forall_cons. split; [done|].
    apply Forall_cons. split; [apply no_dot_dollar|done].
Qed.

Lemma positional_nonempty (fields : list string) (k : string) :
  positional fields [k] ≠ [].
Proof. by destruct fields. Qed.

(** Resolution through any number of arrays of embedded documents. *)
Lemma search_nested (fields : list string) (leaf : Schema) (k : string)
    (rule : SchemaType) :
  path leaf k = Some rule →
  (∀ c, caster rule = Some c → instanceofMixed c = false) →
  search (positional fields [k]) (nested fields leaf) = ReturnsRule rule.
Proof.
  intros Hk Hplain. induction fields as [|f fields IH].
  - simpl. rewrite search_unfold. simpl. unfold body. simpl.
    rewrite Hk. destruct (caster rule) as [c|] eqn:Hc; [|done].
    by rewrite (Hplain c).
  - simpl.
    rewrite (search_descends _ _ 1 (array_of f (nested fields leaf))
               (mkCaster f false) (nested fields leaf)); simpl; try done.
    + lia.
    + intros q Hq _. destruct q as [|[|q]]; try lia.
      unfold path. simpl. by rewrite append_dot_neq.
    + unfold path. simpl. by rewrite String.eqb_refl.
Qed.

(** C2. Where the longest prefix of the path that the schema knows is an
    array rule with an embedded schema (caster not Mixed) and segments
    remain, [_getSchema] is the search of the embedded schema on the
    remaining segments, less the first of them when it is the positional
    [$].  In particular a path [f1.$. ... .fk.$.title] through [k] nested
    arrays of embedded documents, for any [k], resolves to the [title] rule
    of the innermost schema; [comments.$.replies.$.title] is [k = 2]. *)
Theorem getSchema_descends_into_embedded_schema :
  (∀ (s : Schema) (pathstr : string) (p : nat) (rule : SchemaType)
     (c : Caster) (sub : Schema),
     p < length (split pathstr) →
     (∀ q, p < q → q ≤ length (split pathstr) →
        path s (join (take q (split pathstr))) = None) →
     path s (join (take p (split pathstr))) = Some rule →
     caster rule = Some c → instanceofMixed c = false →
     schema rule = Some sub →
     _getSchema s pathstr =
       search (if bool_decide (split pathstr !! p = Some "$"%string)
               then drop (p + 1) (split pathstr)
               else drop p (split pathstr)) sub)
  ∧ (∀ (fields : list string) (leaf : Schema) (title : SchemaType),
       Forall no_dot fields →
       path leaf "title" = Some title →
       (∀ c, caster title = Some c → instanceofMixed c = false) →
       _getSchema (nested fields leaf) (join (positional fields ["title"%string]))
         = ReturnsRule title).
Proof.
  split.
  - intros s pathstr p rule c sub Hp Hlong Hfound Hc Hmixed Hsub.
    unfold _getSchema. rewrite (exact_miss s pathstr p Hp Hlong).
    by apply (search_descends s (split pathstr) p rule c sub).
  - intros fields leaf title Hfields Htitle Hplain.
    assert (no_dot "title") as Hnd by no_dot_literal.
    unfold _getSchema. destruct fields as [|f fields].
    + simpl. by rewrite Htitle.
    + replace (path (nested (f :: fields) leaf)
                 (join (positional (f :: fields) ["title"%string])))
        with (@None SchemaType)
        by (unfold path; simpl; by rewrite append_dot_neq).
      rewrite split_join.
      * by apply search_nested.
      * apply positional_nonempty.
      * by apply Forall_no_dot_positional.
Qed.

Lemma getSchema_descends_into_embedded_schema_witness :
  _getSchema postSchema "comments.$.replies.$.title"
    = search ["replies"; "$"; "title"]%string commentSchema
  ∧ _getSchema (nested ["comments"; "replies"]%string replySchema)
      (join (positional ["comments"; "replies"]%string ["title"%string]))
    = ReturnsRule titleRule.
Proof.
  split.
  - apply (proj1 getSchema_descends_into_embedded_schema postSchema
             "comments.$.replies.$.title" 1
             (array_of "comments" commentSchema)
             (mkCaster "comments" false) commentSchema);
      try reflexivity.
    + simpl. lia.
    + intros q Hlo Hhi. simpl in Hhi.
      do 6 (destruct q as [|q]; [first [lia | reflexivity]|]). lia.
  - apply (proj2 getSchema_descends_into_embedded_schema
             ["comments"; "replies"]%string replySchema titleRule).
    + apply Forall_cons. split; [no_dot_literal|].
      apply Forall_cons. split; [no_dot_literal|]. by apply Forall_nil.
    + reflexivity.
    + intros c Hc. discriminate Hc.
Defined.

(** The specification's example, evaluated: the innermost [title] rule. *)
Example getSchema_comments_replies_title :
  _getSchema postSchema "comments.$.replies.$.title" = ReturnsRule titleRule.
Proof. reflexivity. Qed.

(** A plain (non-document) array has no embedded schema: descending into
    it throws. *)
Example getSchema_plain_array_throws :
  _getSchema (mkSchema [("roles"%string,
                         mkSchemaType "roles" (Some (mkCaster "String" false)) None)])
    "roles.$.x" = ThrowsTypeError.
Proof. reflexivity. Qed.

(** C7 as stated fails: below an array of Mixed the resolver returns the
    Mixed caster, which is not the array rule. *)
Lemma getSchema_mixed_is_not_the_array_rule :
  path postSchema "tags" = Some tagsRule
  ∧ _getSchema postSchema "tags.0.anything" = ReturnsCaster mixedCaster
  ∧ _getSchema postSchema "tags.0.anything" ≠ ReturnsRule tagsRule.
Proof. repeat split. discriminate. Qed.

(** C7, amended. When the longest prefix of the path that the schema knows
    is a proper prefix and names an array rule whose caster is Mixed,
    [_getSchema] returns that caster, whatever segments remain: there is no
    further descent, and what comes back is the Mixed caster rather than the
    array rule. *)
Theorem getSchema_mixed_array_returns_caster
    (s : Schema) (pathstr : string) (p : nat) (rule : SchemaType)
    (c : Caster) :
  p < length (split pathstr) →
  (∀ q, p < q → q ≤ length (split pathstr) →
     path s (join (take q (split pathstr))) = None) →
  path s (join (take p (split pathstr))) = Some rule →
  caster rule = Some c → instanceofMixed c = true →
  _getSchema s pathstr = ReturnsCaster c.
Proof.
  intros Hp Hlong Hfound Hc Hmixed.
  unfold _getSchema. rewrite (exact_miss s pathstr p Hp Hlong).
  apply (search_mixed s (split pathstr) p rule c); [lia|done..].
Qed.

Lemma getSchema_mixed_array_returns_caster_witness :
  _getSchema postSchema "tags.0.anything" = ReturnsCaster mixedCaster.
Proof.
  apply (getSchema_mixed_array_returns_caster postSchema "tags.0.anything" 1
           tagsRule mixedCaster); try reflexivity.
  - simpl. lia.
  - intros q Hlo Hhi. simpl in Hhi.
    do 4 (destruct q as [|q]; [first [lia | reflexivity]|]). lia.
Defined.

(** The array rule itself comes back only on the exact-match fast path. *)
Lemma getSchema_exact (s : Schema) (pathstr : string) (rule : SchemaType) :
  path s pathstr = Some rule → _getSchema s pathstr = ReturnsRule rule.
Proof. intros H. unfold _getSchema. by rewrite H. Qed.

End PathResolverFacts.

Section ReassemblerFacts.
Import Reassembler.

Example find_many_sorted_example :
  assignRawDocsToIdStructure [idX; idY] [docY; docX] true true
    = [Some (of_doc docY); Some (of_doc docX)].
Proof. reflexivity. Qed.

Example find_many_unsorted_example :
  assignRawDocsToIdStructure [idX; Some (VStr "z"); idY] [docY; docX] false true
    = [Some (of_doc docX); Some (VStr "z"); Some (of_doc docY)].
Proof. reflexivity. Qed.

Example find_one_example :
  assignRawDocsToIdStructure [idX; Some VNull; idY] [docX; docY] false false
    = [Some (of_doc docX); Some VNull; Some (of_doc docY)].
Proof. reflexivity. Qed.

Example nested_example :
  assignRawDocsToIdStructure [Some (VArr [idX; idY]); Some (VArr [idY])]
    [docY; docX] false false
    = [Some (VArr [Some (of_doc docX); Some (of_doc docY)]);
       Some (VArr [Some (of_doc docY)])].
Proof. reflexivity. Qed.

(** *** Sparse-array assignments *)

Lemma push_lookup (a : list (option value)) (v : value) (j : nat)
    (x : option value) :
  a !! j = Some x → push a v !! j = Some x.
Proof. intros H. unfold push. by rewrite lookup_app_l_Some with (x := x). Qed.

Lemma assign_at_lookup_eq (a : list (option value)) (i : nat) (v : value) :
  assign_at a i v !! i = Some (Some v).
Proof.
  unfold assign_at. destruct (Nat.ltb_spec i (length a)) as [Hlt|Hge].
  - by apply list_lookup_insert_eq.
  - rewrite lookup_app_r by lia. rewrite lookup_app_r; rewrite length_replicate;
      [|lia]. by replace (i - length a - (i - length a)) with 0 by lia.
Qed.

Lemma assign_at_lookup_ne (a : list (option value)) (i j : nat) (v : value)
    (x : option value) :
  i ≠ j → a !! j = Some x → assign_at a i v !! j = Some x.
Proof.
  intros Hne Hj. unfold assign_at.
  destruct (Nat.ltb_spec i (length a)) as [Hlt|Hge].
  - by rewrite list_lookup_insert_ne.
  - by rewrite lookup_app_l_Some with (x := x).
Qed.

Lemma first_match_lookup (sid : string) (vals : list doc) (f0 f : nat)
    (d : doc) :
  first_match sid vals f0 = Some (f, d) →
  f0 ≤ f ∧ vals !! (f - f0) = Some d
  ∧ String.eqb sid (ToString (_id d)) = true.
Proof.
  revert f0. induction vals as [|d' vals IH]; intros f0 H; [done|].
  simpl in H. destruct (String.eqb sid (ToString (_id d'))) eqn:He.
  - injection H as <- <-. replace (f0 - f0) with 0 by lia. by repeat split.
  - apply IH in H as (Hle & Hl & Hd). repeat split; [lia| |done].
    replace (f - f0) with (S (f - S f0)) by lia. done.
Qed.

(** *** The sorted find-many loop *)

(** A record that sits at its own index of [vals] stays there. *)
Lemma step_keeps (recur : value → value) (vals : list doc) (i f : nat)
    (o : option value) (newOrder : list (option value)) (d : doc) :
  vals !! f = Some d →
  newOrder !! f = Some (Some (of_doc d)) →
  step recur vals true true i o newOrder !! f = Some (Some (of_doc d)).
Proof.
  intros Hd Hf. unfold step.
  assert (∀ id : value,
    match first_match (ToString id) vals 0 with
    | Some (f', d') => assign_at newOrder f' (of_doc d')
    | None => push newOrder id
    end !! f = Some (Some (of_doc d))) as Hscalar.
  { intros id. destruct (first_match (ToString id) vals 0) as [[f' d']|] eqn:Hm.
    - apply first_match_lookup in Hm as (_ & Hl & _).
      rewrite Nat.sub_0_r in Hl. destruct (decide (f' = f)) as [->|Hne].
      + replace d' with d by congruence. apply assign_at_lookup_eq.
      + by apply assign_at_lookup_ne.
    - by apply push_lookup. }
  destruct o as [[| |s|i' b|sub]|]; simpl.
  - apply (Hscalar VUndefined).
  - apply (Hscalar VNull).
  - apply (Hscalar (VStr s)).
  - apply (Hscalar (VDoc i' b)).
  - by apply push_lookup.
  - apply (Hscalar VUndefined).
Qed.

Lemma loop_keeps (recur : value → value) (vals : list doc)
    (rawIds : list (option value)) (i f : nat)
    (newOrder : list (option value)) (d : doc) :
  vals !! f = Some d →
  newOrder !! f = Some (Some (of_doc d)) →
  loop recur vals true true rawIds i newOrder !! f = Some (Some (of_doc d)).
Proof.
  intros Hd. revert i newOrder.
  induction rawIds as [|o rest IH]; intros i newOrder Hf; [done|].
  simpl. apply IH. by apply step_keeps.
Qed.

(** The iteration that meets a requested id puts its first match at the
    match's own index. *)
Lemma step_places (recur : value → value) (vals : list doc) (i f : nat)
    (o : option value) (newOrder : list (option value)) (d : doc) :
  isArray (match o with Some v => v | None => VUndefined end) = false →
  first_match (ToString (match o with Some v => v | None => VUndefined end))
    vals 0 = Some (f, d) →
  step recur vals true true i o newOrder !! f = Some (Some (of_doc d)).
Proof.
  intros Harr Hm. unfold step.
  destruct o as [[| |s|i' b|sub]|]; simpl in *; try done;
    rewrite Hm; apply assign_at_lookup_eq.
Qed.

Lemma loop_places (recur : value → value) (vals : list doc)
    (rawIds : list (option value)) (k i f : nat)
    (newOrder : list (option value)) (d : doc) :
  k < length rawIds →
  isArray (get rawIds k) = false →
  first_match (ToString (get rawIds k)) vals 0 = Some (f, d) →
  loop recur vals true true rawIds i newOrder !! f = Some (Some (of_doc d)).
Proof.
  revert k i newOrder.
  induction rawIds as [|o rest IH]; intros k i newOrder Hk Harr Hm.
  - simpl in Hk. lia.
  - simpl. destruct k as [|k].
    + apply loop_keeps.
      * apply first_match_lookup in Hm as (_ & Hl & _).
        by rewrite Nat.sub_0_r in Hl.
      * apply step_places; unfold get in *; simpl in *; by destruct o.
    + apply (IH k); [simpl in Hk; lia|done..].
Qed.

(** *** Copying the new order back *)

Lemma forEach_assign_keeps (src dst : list (option value)) (i j : nat)
    (x : option value) :
  j < i → dst !! j = Some x → forEach_assign src i dst !! j = Some x.
Proof.
  revert i dst. induction src as [|[v|] src IH]; intros i dst Hlt Hj; simpl.
  - done.
  - apply IH; [lia|]. apply assign_at_lookup_ne; [lia|done].
  - apply IH; [lia|done].
Qed.

Lemma forEach_assign_copies (src dst : list (option value)) (i k : nat)
    (v : value) :
  src !! k = Some (Some v) →
  forEach_assign src i dst !! (i + k) = Some (Some v).
Proof.
  revert i k dst. induction src as [|o src IH]; intros i k dst Hk; [done|].
  destruct k as [|k].
  - simpl in Hk. injection Hk as ->. simpl. rewrite Nat.add_0_r.
    apply forEach_assign_keeps; [lia|]. apply assign_at_lookup_eq.
  - simpl in Hk. replace (i + S k) with (S i + k) by lia.
    destruct o; apply (IH (S i) k); done.
Qed.

(** C1 as stated fails: with a sort order the reassembled structure is in
    the order of the found records.  Requested ["x"; "y"], found [{y}; {x}]:
    the result is [{y}; {x}], and the slot of the requested "x" holds the
    record "y". *)
Lemma sorted_find_many_follows_found_order :
  assignRawDocsToIdStructure [idX; idY] [docY; docX] true true
    = [Some (of_doc docY); Some (of_doc docX)]
  ∧ assignRawDocsToIdStructure [idX; idY] [docY; docX] true true
    ≠ [Some (of_doc docX); Some (of_doc docY)]
  ∧ get (assignRawDocsToIdStructure [idX; idY] [docY; docX] true true) 0
    = of_doc docY.
Proof. repeat split. discriminate. Qed.

(** C1, amended. Find-many mode with a sort order in force (more than one
    requested id): for every requested id that is not a nested array, the
    first found record whose stringified identifier equals it is placed at
    the index that record has among the found records, so the reassembled
    structure follows the discovery order of the found records. *)
Theorem sorted_find_many_places_at_found_index
    (rawIds : list (option value)) (vals : list doc) (i f : nat) (d : doc) :
  1 < length rawIds →
  i < length rawIds →
  isArray (get rawIds i) = false →
  first_match (ToString (get rawIds i)) vals 0 = Some (f, d) →
  vals !! f = Some d
  ∧ assignRawDocsToIdStructure rawIds vals true true !! f
    = Some (Some (of_doc d)).
Proof.
  intros Hmany Hi Harr Hm. split.
  - apply first_match_lookup in Hm as (_ & Hl & _).
    by rewrite Nat.sub_0_r in Hl.
  - unfold assignRawDocsToIdStructure, reassemble.
    replace (1 <? length rawIds) with true
      by (symmetry; apply Nat.ltb_lt; lia).
    simpl. apply (forEach_assign_copies _ [] 0 f).
    by apply (loop_places _ _ _ i).
Qed.

Lemma sorted_find_many_places_at_found_index_witness :
  [docY; docX] !! 1 = Some docX
  ∧ assignRawDocsToIdStructure [idX; idY] [docY; docX] true true !! 1
    = Some (Some (of_doc docX)).
Proof.
  apply (sorted_find_many_places_at_found_index
           [idX; idY] [docY; docX] 0 1 docX).
  - simpl. lia.
  - simpl. lia.
  - reflexivity.
  - reflexivity.
Defined.

End ReassemblerFacts.

Section LifecycleFacts.
Import Lifecycle.

(** *** Saving *)

Lemma resolve_isNew (p : nat) (o : outcome) (d : Document) :
  isNew (resolve p o d) = isNew d.
Proof.
  unfold resolve. destruct (promises d !! p) as [pr|]; [|done].
  by destruct (emitted pr).
Qed.

Lemma save_isNew (fn : callback) (this : Document) :
  isNew (save fn this).2 = false.
Proof. unfold save, new_Promise. simpl. by destruct (isNew this) eqn:E. Qed.

Lemma save_inserting (fn : callback) (this : Document) :
  inserting (save fn this).2 = isNew this.
Proof. unfold save, new_Promise. simpl. by destruct (isNew this) eqn:E. Qed.

(** C3. A save that the backend answers with an error leaves [isNew] as it
    was when the save was issued: [true] again after a failed insert (the
    entity was new), [false] after a failed update (it was not). *)
Theorem failed_save_restores_isNew
    (this : Document) (fn : callback) (err : error) :
  (isNew this = true →
   isNew (handleSave (save fn this).1 (SaveError err) (save fn this).2) = true)
  ∧ (isNew this = false →
     isNew (handleSave (save fn this).1 (SaveError err) (save fn this).2)
       = false).
Proof.
  split; intros Hnew; unfold handleSave;
    rewrite resolve_isNew, save_inserting, Hnew; [done|].
  apply save_isNew.
Qed.

Lemma failed_save_restores_isNew_witness :
  isNew (handleSave (save 7 fresh).1 (SaveError "conflict")
           (save 7 fresh).2) = true
  ∧ isNew (handleSave (save 7 stored).1 (SaveError "conflict")
             (save 7 stored).2) = false.
Proof.
  split.
  - apply (proj1 (failed_save_restores_isNew fresh 7 "conflict")).
    reflexivity.
  - apply (proj2 (failed_save_restores_isNew stored 7 "conflict")).
    reflexivity.
Defined.

(** The failed insert is signalled: the lifecycle notification and the
    caller's function, with the backend's error. *)
Example failed_insert_trace :
  trace (handleSave (save 7 fresh).1 (SaveError "conflict") (save 7 fresh).2)
  = [CollectionInsert 0; EmitIsNew false; EmitIsNew true;
     Called 7 (Failed "conflict")].
Proof. reflexivity. Qed.

(** The round trip above is that of one save.  A second save issued
    before the backend answers the first is an update and clears
    [inserting]; a failure of the first then finds nothing to reset. *)
Example overlapping_update_clears_inserting :
  isNew (handleSave (save 7 fresh).1 (SaveError "conflict")
           (save 8 (save 7 fresh).2).2) = false.
Proof. reflexivity. Qed.

(** A save that succeeds adopts the identifier and revision of the
    backend and leaves the entity not new. *)
Lemma successful_save_adopts_id (this : Document) (fn : callback)
    (id rev : string) :
  isNew (handleSave (save fn this).1 (SaveOk id rev) (save fn this).2) = false
  ∧ _id (handleSave (save fn this).1 (SaveOk id rev) (save fn this).2)
    = Some id
  ∧ _rev (handleSave (save fn this).1 (SaveOk id rev) (save fn this).2)
    = Some rev.
Proof.
  unfold handleSave, resolve. simpl.
  destruct (promises (save fn this).2 !! (save fn this).1) as [pr|];
    [destruct (emitted pr)|]; simpl; repeat split; apply save_isNew.
Qed.

(** *** Removing *)

Lemma remove_in_flight (d : Document) (p : nat) (ws : list callback)
    (fn : callback) :
  removing d = Some p →
  promises d !! p = Some (mkPromise ws None) →
  (remove fn d).1 = None
  ∧ trace (remove fn d).2 = trace d
  ∧ removing (remove fn d).2 = Some p
  ∧ _id (remove fn d).2 = _id d ∧ _rev (remove fn d).2 = _rev d
  ∧ promises (remove fn d).2 !! p = Some (mkPromise (ws ++ [fn]) None).
Proof.
  intros Hr Hp. unfold remove. rewrite Hr. simpl.
  unfold addBack. rewrite Hp. simpl. repeat split; try done.
  apply list_lookup_insert_eq. by apply lookup_lt_Some in Hp.
Qed.

Lemma remove_all_in_flight (fns : list callback) (d : Document) (p : nat)
    (ws : list callback) :
  removing d = Some p →
  promises d !! p = Some (mkPromise ws None) →
  trace (remove_all fns d) = trace d
  ∧ removing (remove_all fns d) = Some p
  ∧ promises (remove_all fns d) !! p = Some (mkPromise (ws ++ fns) None).
Proof.
  revert d ws. induction fns as [|fn fns IH]; intros d ws Hr Hp.
  - simpl. by rewrite app_nil_r.
  - simpl.
    destruct (remove_in_flight d p ws fn Hr Hp) as (_ & Ht & Hr' & _ & _ & Hp').
    destruct (IH _ _ Hr' Hp') as (Ht2 & Hr2 & Hp2).
    rewrite Ht2, Ht, Hr2, Hp2. by rewrite <- app_assoc.
Qed.

Lemma remove_idle (d : Document) (fn : callback) :
  removing d = None →
  (remove fn d).1 = Some (length (promises d))
  ∧ trace (remove fn d).2
    = trace d ++ [CollectionRemove (_id d) (_rev d) (length (promises d))]
  ∧ removing (remove fn d).2 = Some (length (promises d))
  ∧ promises (remove fn d).2 !! length (promises d)
    = Some (mkPromise [fn] None).
Proof.
  intros Hr. unfold remove. rewrite Hr. simpl. repeat split.
  by rewrite list_lookup_middle.
Qed.

Lemma remove_idle_eq (d : Document) (fn : callback) :
  removing d = None →
  remove fn d
  = (Some (length (promises d)),
     mkDocument (isNew d) (inserting d) (Some (length (promises d)))
       (_id d) (_rev d) (dirtyPaths d)
       (promises d ++ [mkPromise [fn] None])
       (trace d ++ [CollectionRemove (_id d) (_rev d) (length (promises d))])).
Proof. intros Hr. unfold remove. by rewrite Hr. Qed.

Lemma remove_callback_trace (d : Document) (p : nat) (ws : list callback)
    (err : option error) :
  promises d !! p = Some (mkPromise ws None) →
  trace (remove_callback p err d)
  = trace d ++ match err with Some _ => [] | None => [EmitRemove] end
      ++ map (fun fn => Called fn (outcome_of err)) ws.
Proof.
  intros Hp. unfold remove_callback, resolve.
  destruct err as [e|]; simpl; rewrite Hp; simpl; [done|].
  by rewrite <- app_assoc.
Qed.

(** C8. From an entity with no removal pending, a first remove request
    and any further requests made before the backend answers lead to
    exactly one backend remove call: the later requests attach to the
    promise of the first, which stays the pending one.  When the backend
    answers, every caller's function is called with that one outcome, in
    the order of the requests.  Two concurrent requests are [fns = [fn2]]. *)
Theorem concurrent_removes_share_one_call
    (this : Document) (fn1 : callback) (fns : list callback)
    (err : option error) :
  removing this = None →
  trace (remove_all (fn1 :: fns) this)
    = trace this
      ++ [CollectionRemove (_id this) (_rev this) (length (promises this))]
  ∧ removing (remove_all (fn1 :: fns) this) = Some (length (promises this))
  ∧ trace (remove_callback (length (promises this)) err
             (remove_all (fn1 :: fns) this))
    = trace (remove_all (fn1 :: fns) this)
      ++ match err with Some _ => [] | None => [EmitRemove] end
      ++ map (fun fn => Called fn (outcome_of err)) (fn1 :: fns).
Proof.
  intros Hidle.
  destruct (remove_idle this fn1 Hidle) as (_ & Ht & Hr & Hp).
  destruct (remove_all_in_flight fns _ _ _ Hr Hp) as (Ht' & Hr' & Hp').
  change (remove_all (fn1 :: fns) this)
    with (remove_all fns (remove fn1 this).2).
  repeat split.
  - by rewrite Ht', Ht.
  - done.
  - by apply remove_callback_trace.
Qed.

Lemma concurrent_removes_share_one_call_witness :
  trace (remove_all [1; 2] stored)
    = [] ++ [CollectionRemove (Some "doc-1"%string) (Some "1-abc"%string) 0]
  ∧ removing (remove_all [1; 2] stored) = Some 0
  ∧ trace (remove_callback 0 (Some "gone"%string) (remove_all [1; 2] stored))
    = trace (remove_all [1; 2] stored)
      ++ [] ++ [Called 1 (Failed "gone"); Called 2 (Failed "gone")].
Proof.
  apply (concurrent_removes_share_one_call stored 1 [2] (Some "gone"%string)).
  reflexivity.
Defined.

(** C9 as stated fails: after a successful removal the marker is still
    set, and a later remove request reaches no backend (the one backend
    call in the trace is that of the first request). *)
Lemma remove_marker_survives_success :
  removing (remove_callback 0 None (remove 1 stored).2) = Some 0
  ∧ (remove 2 (remove_callback 0 None (remove 1 stored).2)).1 = None
  ∧ remove_calls
      (trace (remove 2 (remove_callback 0 None (remove 1 stored).2)).2)
    = [CollectionRemove (Some "doc-1"%string) (Some "1-abc"%string) 0].
Proof. repeat split. Qed.

(** C9, amended. When the backend call of a remove fails, the pending
    marker is cleared and the next remove request issues a new backend
    call; when it succeeds, the marker stays, and the next remove request
    issues no backend call: it attaches to the finished operation and its
    function is called with the success at once. *)
Theorem remove_marker_cleared_on_failure_only
    (this : Document) (fn fn' : callback) (e : error) :
  removing this = None →
  (removing (remove_callback (length (promises this)) (Some e)
               (remove fn this).2) = None
   ∧ trace (remove fn' (remove_callback (length (promises this)) (Some e)
                          (remove fn this).2)).2
     = trace (remove_callback (length (promises this)) (Some e)
                (remove fn this).2)
       ++ [CollectionRemove (_id this) (_rev this)
             (S (length (promises this)))])
  ∧ (removing (remove_callback (length (promises this)) None
                 (remove fn this).2) = Some (length (promises this))
     ∧ trace (remove fn' (remove_callback (length (promises this)) None
                            (remove fn this).2)).2
       = trace (remove_callback (length (promises this)) None
                  (remove fn this).2)
         ++ [Called fn' Completed]).
Proof.
  intros Hidle. rewrite (remove_idle_eq this fn Hidle). simpl.
  unfold remove_callback, resolve. simpl.
  rewrite !list_lookup_middle by done. simpl.
  repeat split.
  - unfold remove. simpl. rewrite length_insert, length_app. simpl.
    by rewrite Nat.add_1_r.
  - unfold remove. simpl. unfold addBack. simpl.
    rewrite list_lookup_insert_eq by (rewrite length_app; simpl; lia).
    done.
Qed.

Lemma remove_marker_cleared_on_failure_only_witness :
  (removing (remove_callback 0 (Some "gone"%string) (remove 1 stored).2) = None
   ∧ trace (remove 2 (remove_callback 0 (Some "gone"%string)
                        (remove 1 stored).2)).2
     = trace (remove_callback 0 (Some "gone"%string) (remove 1 stored).2)
       ++ [CollectionRemove (Some "doc-1"%string) (Some "1-abc"%string) 1])
  ∧ (removing (remove_callback 0 None (remove 1 stored).2) = Some 0
     ∧ trace (remove 2 (remove_callback 0 None (remove 1 stored).2)).2
       = trace (remove_callback 0 None (remove 1 stored).2)
         ++ [Called 2 Completed]).
Proof.
  apply (remove_marker_cleared_on_failure_only stored 1 2 "gone").
  reflexivity.
Defined.

End LifecycleFacts.

Section IndexSequencerFacts.
Import IndexSequencer.

Lemma done_one_at_a_time (cb : option callback) (err : option error)
    (b : bool) :
  one_at_a_time b (done cb err) = true.
Proof. by destruct cb. Qed.

(** Whatever the backend answers, calls and answers alternate. *)
Lemma create_one_at_a_time (safe : setting) (cb : option callback)
    (indexes : list index) (answers : list (option error)) :
  one_at_a_time false (create safe cb indexes answers) = true.
Proof.
  revert answers. induction indexes as [|i indexes IH]; intros answers.
  - apply done_one_at_a_time.
  - simpl. destruct answers as [|[e|] answers]; simpl; [done| |apply IH].
    apply done_one_at_a_time.
Qed.

Lemma ensureIndexes_one_at_a_time (safe : setting) (cb : option callback)
    (indexes : list index) (answers : list (option error)) :
  one_at_a_time false (ensureIndexes safe cb indexes answers) = true.
Proof.
  destruct indexes as [|i indexes]; [by destruct cb|].
  apply create_one_at_a_time.
Qed.

(** The trace up to and including a first failure at position [k]. *)
Lemma create_first_failure (safe : setting) (cb : option callback)
    (indexes : list index) (k : nat) (e : error)
    (later : list (option error)) :
  k < length indexes →
  issued (create safe cb indexes (replicate k None ++ Some e :: later))
    = call_of safe <$> take (S k) indexes
  ∧ completions (create safe cb indexes (replicate k None ++ Some e :: later))
    = done cb (Some e).
Proof.
  revert k. induction indexes as [|i indexes IH]; intros k Hk.
  - simpl in Hk. lia.
  - destruct k as [|k]; simpl.
    + split; [by destruct cb|by destruct cb].
    + destruct (IH k) as [Hi Hc]; [simpl in Hk; lia|].
      by rewrite Hi, Hc.
Qed.

(** C4. For every list of index specifications and every behaviour of the
    backend, no [ensureIndex] call is issued while a previous one awaits
    its answer.  When the first [k] calls succeed and the next one fails,
    the calls issued are exactly those of the first [k + 1] specifications,
    in order (nothing of a later specification is ever issued), and the
    completion consists of the ['index'] notification and the caller's
    handler, each with that call's error. *)
Theorem ensureIndexes_sequential_first_failure
    (safe : setting) (cb : callback) (indexes : list index)
    (answers : list (option error)) (k : nat) (e : error)
    (later : list (option error)) :
  k < length indexes →
  one_at_a_time false (ensureIndexes safe (Some cb) indexes answers) = true
  ∧ issued (ensureIndexes safe (Some cb) indexes
              (replicate k None ++ Some e :: later))
    = call_of safe <$> take (S k) indexes
  ∧ completions (ensureIndexes safe (Some cb) indexes
                   (replicate k None ++ Some e :: later))
    = [EmitIndex (Some e); Callback cb (Some e)].
Proof.
  intros Hk. split; [apply ensureIndexes_one_at_a_time|].
  destruct indexes as [|i indexes]; [simpl in Hk; lia|].
  by apply (create_first_failure safe (Some cb) (i :: indexes) k e later).
Qed.

Lemma ensureIndexes_sequential_first_failure_witness :
  one_at_a_time false
    (ensureIndexes (Flag true) (Some 9) three_specs [None; Some "busy"%string])
    = true
  ∧ issued (ensureIndexes (Flag true) (Some 9) three_specs
              (replicate 1 None ++ Some "busy"%string :: []))
    = call_of (Flag true) <$> take 2 three_specs
  ∧ completions (ensureIndexes (Flag true) (Some 9) three_specs
                   (replicate 1 None ++ Some "busy"%string :: []))
    = [EmitIndex (Some "busy"%string); Callback 9 (Some "busy"%string)].
Proof.
  apply (ensureIndexes_sequential_first_failure (Flag true) 9 three_specs
           [None; Some "busy"%string] 1 "busy" []).
  simpl. lia.
Defined.

(** The specification's example: three specifications, the second fails. *)
Example ensureIndexes_second_of_three_fails :
  ensureIndexes Undefined (Some 9) three_specs
    [None; Some "busy"%string; None]
  = [EnsureIndex "slug" {["safe"%string := Undefined]}; Acknowledged None;
     EnsureIndex "email" {["safe"%string := Undefined]};
     Acknowledged (Some "busy"%string);
     EmitIndex (Some "busy"%string); Callback 9 (Some "busy"%string)].
Proof. reflexivity. Qed.

End IndexSequencerFacts.

Section HydratorFacts.
Import Hydrator.

(** Both hydrators call back with the entities of all the records, failed
    initialisations or not. *)
Lemma Model_hydrate_always_delivers (init : initializer)
    (docs : list RawRecord) :
  deliveries (Model_hydrate init (Many docs)) = [Sequence (mkEntity <$> docs)].
Proof.
  unfold Model_hydrate, hydrate_calls, deliveries.
  rewrite !omap_app. simpl.
  assert (∀ m, omap (fun c : call => match c with
                                     | (None, r) => Some r
                                     | (Some _, _) => None
                                     end) (init_errors init m docs) = [])
    as Hnone.
  { intros m. unfold init_errors. induction docs as [|d docs IH]; [done|].
    simpl. destruct (init d) as [m' [e|]]; [|done].
    destruct m, m'; simpl; done. }
  by rewrite !Hnone.
Qed.

(** C5, on the code: when the initialisation of the first of two records
    fails, [Model.hydrate] and [hydrate] call the caller's callback twice,
    once with the error and once with no error and the entities of both
    records, the failed one included. *)
Theorem hydrate_failure_still_delivers_batch :
  Model_hydrate init_rejects_rec1 (Many [rec1; rec2])
    = [(Some "cast failed"%string, Null);
       (None, Sequence [mkEntity rec1; mkEntity rec2])]
  ∧ hydrate init_rejects_rec1 (Many [rec1; rec2])
    = [(Some "cast failed"%string, Null);
       (None, Sequence [mkEntity rec1; mkEntity rec2])].
Proof. split; reflexivity. Qed.

(** [Model.hydrate] keeps the shape of its argument. *)
Lemma Model_hydrate_shape (init : initializer) (doc : RawRecord)
    (docs : list RawRecord) :
  deliveries (Model_hydrate init (One doc)) = [Single (mkEntity doc)]
  ∧ deliveries (Model_hydrate init (Many docs))
    = [Sequence (mkEntity <$> docs)].
Proof.
  split; [|apply Model_hydrate_always_delivers].
  unfold Model_hydrate, hydrate_calls, deliveries, init_errors. simpl.
  destruct (init doc) as [[|] [e|]]; reflexivity.
Qed.

Lemma init_errors_deliver_nothing (init : initializer) (m : moment)
    (docs : list RawRecord) :
  deliveries (init_errors init m docs) = [].
Proof.
  unfold deliveries, init_errors. induction docs as [|d docs IH]; [done|].
  simpl. destruct (init d) as [m' [e|]]; [|done].
  destruct m, m'; simpl; done.
Qed.

Lemma hydrate_sequence_shape (init : initializer) (docs : list RawRecord) :
  deliveries (hydrate init (Many docs)) = [Sequence (mkEntity <$> docs)].
Proof.
  unfold hydrate, hydrate_calls. unfold deliveries at 1.
  rewrite !omap_app. fold (deliveries (init_errors init DuringLoop docs)).
  fold (deliveries (init_errors init Later docs)).
  by rewrite !init_errors_deliver_nothing.
Qed.

(** The callback is called once more than there are records whose
    initialisation fails. *)
Lemma init_errors_cons (init : initializer) (m : moment) (d : RawRecord)
    (docs : list RawRecord) :
  init_errors init m (d :: docs)
  = match init d, m with
    | (DuringLoop, Some err), DuringLoop
    | (Later, Some err), Later => [(Some err, Null)]
    | _, _ => []
    end ++ init_errors init m docs.
Proof.
  unfold init_errors. simpl.
  destruct (init d) as [[|] [e|]]; destruct m; reflexivity.
Qed.

Lemma Model_hydrate_calls_count (init : initializer)
    (docs : list RawRecord) :
  length (Model_hydrate init (Many docs))
  = S (length (List.filter (fails init) docs)).
Proof.
  unfold Model_hydrate, hydrate_calls. rewrite !length_app. simpl.
  rewrite Nat.add_succ_r. f_equal.
  induction docs as [|d docs IH]; [done|].
  rewrite !init_errors_cons, !length_app. simpl List.filter.
  unfold fails at 1.
  destruct (init d) as [[|] [e|]]; simpl; rewrite <- IH;
    first [reflexivity | by rewrite Nat.add_succ_r].
Qed.

(** C6, on the code: for a single record [hydrate] delivers a one-element
    sequence where [Model.hydrate] delivers the entity; a sequence of
    records is delivered by both as the sequence of their entities, of the
    same length and in the same order. *)
Theorem hydrate_single_record_delivers_sequence
    (init : initializer) (doc : RawRecord) (docs : list RawRecord) :
  deliveries (hydrate init (One doc)) = [Sequence [mkEntity doc]]
  ∧ deliveries (Model_hydrate init (One doc)) = [Single (mkEntity doc)]
  ∧ deliveries (hydrate init (Many docs)) = [Sequence (mkEntity <$> docs)]
  ∧ deliveries (Model_hydrate init (Many docs))
    = [Sequence (mkEntity <$> docs)].
Proof.
  split; [|split; [apply (Model_hydrate_shape init doc [])|split]].
  - apply (hydrate_sequence_shape init [doc]).
  - apply hydrate_sequence_shape.
  - apply Model_hydrate_always_delivers.
Qed.

End HydratorFacts.

Section BulkRemoveFacts.
Import BulkRemove.

Lemma set_deleted_same (h : heap) (l : loc) :
  set_deleted h l !! l = (fun o => <["_deleted" := VBool true]> o) <$> (h !! l).
Proof. unfold set_deleted. by rewrite lookup_alter_eq. Qed.

Lemma set_deleted_other (h : heap) (l l' : loc) :
  l ≠ l' → set_deleted h l !! l' = h !! l'.
Proof. intros Hne. unfold set_deleted. by rewrite lookup_alter_ne. Qed.

(** Objects the sequence does not mention are left alone. *)
Lemma foldl_set_deleted_frame (docs : list loc) (h : heap) (l : loc) :
  l ∉ docs → foldl set_deleted h docs !! l = h !! l.
Proof.
  revert h. induction docs as [|d docs IH]; intros h Hnot; [done|].
  apply not_elem_of_cons in Hnot as [Hne Hnot]. simpl.
  rewrite IH by done. by apply set_deleted_other.
Qed.

(** An object that already carries the mark keeps it, whatever else the
    loop visits (the same object may occur twice in the sequence). *)
Lemma foldl_set_deleted_marked (docs : list loc) (h : heap) (l : loc)
    (o : gmap string value) :
  h !! l = Some (<["_deleted" := VBool true]> o) →
  foldl set_deleted h docs !! l = Some (<["_deleted" := VBool true]> o).
Proof.
  revert h. induction docs as [|d docs IH]; intros h Hl; [done|].
  simpl. apply IH. destruct (decide (d = l)) as [->|Hne].
  - rewrite set_deleted_same, Hl. simpl. by rewrite insert_insert_eq.
  - by rewrite set_deleted_other.
Qed.

Lemma foldl_set_deleted_elem (docs : list loc) (h : heap) (l : loc)
    (o : gmap string value) :
  l ∈ docs → h !! l = Some o →
  foldl set_deleted h docs !! l = Some (<["_deleted" := VBool true]> o).
Proof.
  revert h. induction docs as [|d docs IH]; intros h Hin Hl.
  - by apply elem_of_nil in Hin.
  - simpl. destruct (decide (d = l)) as [->|Hne].
    + apply foldl_set_deleted_marked. by rewrite set_deleted_same, Hl.
    + apply elem_of_cons in Hin as [->|Hin]; [done|].
      apply IH; [done|]. by rewrite set_deleted_other.
Qed.

(** C10. Class-level [Model.remove] marks the caller's own objects: every
    document object the caller passed has [_deleted = true] afterwards
    (its other fields as they were), the mark is already there in the heap
    the backend save is issued on, and that save is the only backend call
    made. *)
Theorem bulk_remove_marks_caller_documents
    (docs : list loc) (w : world) (l : loc) (o : gmap string value) :
  l ∈ docs →
  objects w !! l = Some o →
  objects (remove docs w) !! l = Some (<["_deleted" := VBool true]> o)
  ∧ calls (remove docs w) = calls w ++ [DbSave docs (objects (remove docs w))].
Proof.
  intros Hin Hl. split; [|done].
  by apply foldl_set_deleted_elem.
Qed.

Lemma bulk_remove_marks_caller_documents_witness :
  objects (remove [1%positive; 2%positive] (World two_docs [])) !! 2%positive
    = Some (<["_deleted" := VBool true]> {["_id" := VStr "b"]})
  ∧ calls (remove [1%positive; 2%positive] (World two_docs []))
    = [] ++ [DbSave [1%positive; 2%positive]
               (objects (remove [1%positive; 2%positive] (World two_docs [])))].
Proof.
  apply (bulk_remove_marks_caller_documents
           [1%positive; 2%positive] (World two_docs []) 2%positive
           {["_id" := VStr "b"]}).
  - apply elem_of_cons. right. apply elem_of_cons. by left.
  - reflexivity.
Defined.

End BulkRemoveFacts.

Section ReassemblerOrderFacts.
Import Reassembler.

(** Copying back a new order without holes gives that order. *)
Lemma forEach_assign_dense (vs : list value) (dst : list (option value)) :
  forEach_assign (Some <$> vs) (length dst) dst = dst ++ (Some <$> vs).
Proof.
  revert dst. induction vs as [|v vs IH]; intros dst; simpl.
  - by rewrite app_nil_r.
  - replace (assign_at dst (length dst) v) with (dst ++ [Some v]).
    + replace (S (length dst)) with (length (dst ++ [Some v]))
        by (rewrite length_app; simpl; lia).
      rewrite IH. by rewrite <- app_assoc.
    + unfold assign_at. rewrite Nat.ltb_irrefl, Nat.sub_diag. done.
Qed.

(** A loop whose every iteration appends one value builds the list of
    these values. *)
Lemma loop_appends (recur : value → value) (vals : list doc)
    (sorting recursed : bool) (slot : option value → value)
    (rawIds : list (option value)) (acc : list value) :
  (∀ (acc' : list value) (o : option value),
     step recur vals sorting recursed (length acc') o (Some <$> acc')
     = Some <$> (acc' ++ [slot o])) →
  loop recur vals sorting recursed rawIds (length acc) (Some <$> acc)
  = Some <$> (acc ++ (slot <$> rawIds)).
Proof.
  intros Hstep. revert acc.
  induction rawIds as [|o rest IH]; intros acc; simpl.
  - by rewrite app_nil_r.
  - rewrite Hstep.
    replace (S (length acc)) with (length (acc ++ [slot o]))
      by (rewrite length_app; simpl; lia).
    rewrite IH. by rewrite <- app_assoc.
Qed.

Lemma assign_at_end (acc : list value) (v : value) :
  assign_at (Some <$> acc) (length acc) v = Some <$> (acc ++ [v]).
Proof.
  unfold assign_at. rewrite length_fmap, Nat.ltb_irrefl, Nat.sub_diag.
  by rewrite fmap_app.
Qed.

Lemma push_end (acc : list value) (v : value) :
  push (Some <$> acc) v = Some <$> (acc ++ [v]).
Proof. unfold push. by rewrite fmap_app. Qed.

(** X1. Find-one mode keeps one slot per requested element, in the order
    of the request and without holes: the slot holds the first found record
    whose id stringifies like the requested id, [null] when there is none,
    the reassembled array for a nested array, and [null] for a requested
    [null] (looked up like any other id once a sort order is in force). *)
Theorem find_one_keeps_every_slot
    (rawIds : list (option value)) (vals : list doc) (sort : bool) :
  assignRawDocsToIdStructure rawIds vals sort false
  = (fun o => Some (one_slot vals sort (sort && (1 <? length rawIds)) o))
      <$> rawIds.
Proof.
  unfold assignRawDocsToIdStructure, reassemble.
  set (sorting := sort && (1 <? length rawIds)).
  rewrite (loop_appends _ vals sorting false (one_slot vals sort sorting)
             rawIds []).
  - simpl. rewrite (forEach_assign_dense _ []). simpl.
    by rewrite <- list_fmap_compose.
  - intros acc o. unfold step, one_slot, found_or.
    destruct o as [[| |s|i b|sub]|]; simpl;
      try apply assign_at_end; try apply push_end.
    destruct sorting; simpl; [apply assign_at_end|apply push_end].
Qed.

(** X2. Find-many mode with no sort order in force answers in the order of
    the request, one slot per requested element and without holes: a
    matched id gives its first found record, an unmatched id stays in the
    result as it is, a requested [null] stays, and a nested array is
    reassembled in place. *)
Theorem find_many_unsorted_follows_request
    (rawIds : list (option value)) (vals : list doc) (sort : bool) :
  sort && (1 <? length rawIds) = false →
  assignRawDocsToIdStructure rawIds vals sort true
  = (fun o => Some (many_slot vals sort o)) <$> rawIds.
Proof.
  intros Hsorting. unfold assignRawDocsToIdStructure, reassemble.
  rewrite Hsorting.
  rewrite (loop_appends _ vals false true (many_slot vals sort) rawIds []).
  - simpl. rewrite (forEach_assign_dense _ []). simpl.
    by rewrite <- list_fmap_compose.
  - intros acc o. unfold step, many_slot, found_or.
    destruct o as [[| |s|i b|sub]|]; simpl; try apply push_end;
      match goal with
      | |- context [first_match ?sid vals 0] =>
          destruct (first_match sid vals 0) as [[f d]|]; apply push_end
      end.
Qed.

Lemma find_many_unsorted_follows_request_witness :
  assignRawDocsToIdStructure [idX; Some (VStr "z"); idY] [docY; docX]
    false true
  = (fun o => Some (many_slot [docY; docX] false o))
      <$> [idX; Some (VStr "z"); idY].
Proof.
  apply (find_many_unsorted_follows_request
           [idX; Some (VStr "z"); idY] [docY; docX] false).
  reflexivity.
Defined.

End ReassemblerOrderFacts.

Section PathResolverEdgeFacts.
Import PathResolver.

(** X3. A path none of whose prefixes (the empty one included) is in the
    path table resolves to [undefined]: no rule, no exception. *)
Theorem getSchema_unknown_path_is_undefined (s : Schema) (pathstr : string) :
  (∀ q, q ≤ length (split pathstr) →
     path s (join (take q (split pathstr))) = None) →
  _getSchema s pathstr = ReturnsUndefined.
Proof.
  intros Hnone. unfold _getSchema.
  replace (path s pathstr) with (@None SchemaType).
  - rewrite search_unfold.
    rewrite (scan_skip _ _ _ 0); [done|lia|].
    intros q _ Hq. apply Hnone. lia.
  - symmetry. rewrite <- (join_split pathstr) at 1.
    rewrite <- (take_ge (split pathstr) (length (split pathstr))) at 1 by lia.
    by apply Hnone.
Qed.

Lemma getSchema_unknown_path_is_undefined_witness :
  _getSchema postSchema "author.name" = ReturnsUndefined.
Proof.
  apply (getSchema_unknown_path_is_undefined postSchema "author.name").
  intros q Hq. simpl in Hq.
  do 3 (destruct q as [|q]; [reflexivity|]). lia.
Defined.

(** X4. When the longest prefix of the path that the table knows is a rule
    without a caster (not an array), [_getSchema] returns that rule and
    ignores the segments after the prefix. *)
Theorem getSchema_plain_rule_ignores_tail
    (s : Schema) (pathstr : string) (p : nat) (rule : SchemaType) :
  p ≤ length (split pathstr) →
  (∀ q, p < q → q ≤ length (split pathstr) →
     path s (join (take q (split pathstr))) = None) →
  path s (join (take p (split pathstr))) = Some rule →
  caster rule = None →
  _getSchema s pathstr = ReturnsRule rule.
Proof.
  intros Hp Hlong Hfound Hplain. unfold _getSchema.
  destruct (decide (p = length (split pathstr))) as [->|Hne].
  - rewrite take_ge, join_split in Hfound by lia. by rewrite Hfound.
  - rewrite (exact_miss s pathstr p) by (done || lia).
    rewrite search_unfold.
    rewrite (scan_skip _ _ _ (S p)); [|lia|intros q ? ?; apply Hlong; lia].
    simpl. unfold body. by rewrite Hfound, Hplain.
Qed.

Lemma getSchema_plain_rule_ignores_tail_witness :
  _getSchema commentSchema "body.text.more"
  = ReturnsRule (mkSchemaType "body" None None).
Proof.
  apply (getSchema_plain_rule_ignores_tail commentSchema "body.text.more" 1);
    try reflexivity.
  - simpl. lia.
  - intros q Hlo Hhi. simpl in Hhi.
    do 4 (destruct q as [|q]; [first [lia | reflexivity]|]). lia.
Defined.

(** X5. When the longest known prefix is a proper prefix and names an
    array rule whose caster is not Mixed and which has no embedded schema
    (an array of plain values), the recursive call is made on an undefined
    schema and [_getSchema] throws a [TypeError]. *)
Theorem getSchema_plain_array_with_tail_throws
    (s : Schema) (pathstr : string) (p : nat) (rule : SchemaType)
    (c : Caster) :
  p < length (split pathstr) →
  (∀ q, p < q → q ≤ length (split pathstr) →
     path s (join (take q (split pathstr))) = None) →
  path s (join (take p (split pathstr))) = Some rule →
  caster rule = Some c → instanceofMixed c = false →
  schema rule = None →
  _getSchema s pathstr = ThrowsTypeError.
Proof.
  intros Hp Hlong Hfound Hc Hmixed Hnone. unfold _getSchema.
  rewrite (exact_miss s pathstr p Hp Hlong).
  rewrite search_unfold.
  rewrite (scan_skip _ _ _ (S p)); [|lia|intros q ? ?; apply Hlong; lia].
  simpl. unfold body. rewrite Hfound, Hc, Hmixed.
  replace (p =? length (split pathstr)) with false
    by (symmetry; apply Nat.eqb_neq; lia).
  simpl. rewrite Hnone. by case_bool_decide.
Qed.

Lemma getSchema_plain_array_with_tail_throws_witness :
  _getSchema rolesSchema "roles.$.x" = ThrowsTypeError.
Proof.
  apply (getSchema_plain_array_with_tail_throws rolesSchema "roles.$.x" 1
           rolesRule (mkCaster "String" false)); try reflexivity.
  - simpl. lia.
  - intros q Hlo Hhi. simpl in Hhi.
    do 4 (destruct q as [|q]; [first [lia | reflexivity]|]). lia.
Defined.

End PathResolverEdgeFacts.

Section IndexSequencerMoreFacts.
Import IndexSequencer.

Lemma create_all_acknowledged (safe : setting) (cb : option callback)
    (indexes : list index) (later : list (option error)) :
  create safe cb indexes (replicate (length indexes) None ++ later)
  = flat_map (fun i => [EnsureIndex (keys i)
                          (<["safe"%string := safe]> (options i));
                        Acknowledged None]) indexes
    ++ done cb None.
Proof.
  induction indexes as [|i indexes IH]; [done|].
  simpl. by rewrite IH.
Qed.

(** X6. When the backend acknowledges every call without an error, the
    sequencer issues one call per index specification, in the order of the
    specifications, each after the acknowledgment of the one before, then
    emits ['index'] with no error and calls the handler with no error.
    With no specification at all it emits nothing and only schedules the
    handler on the next tick. *)
Theorem ensureIndexes_all_acknowledged
    (safe : setting) (cb : option callback) (indexes : list index)
    (later : list (option error)) :
  indexes ≠ [] →
  ensureIndexes safe cb indexes (replicate (length indexes) None ++ later)
  = flat_map (fun i => [EnsureIndex (keys i)
                          (<["safe"%string := safe]> (options i));
                        Acknowledged None]) indexes
    ++ done cb None
  ∧ ensureIndexes safe cb [] later
    = match cb with Some f => [NextTick f] | None => [] end.
Proof.
  intros Hne. split; [|done].
  destruct indexes as [|i indexes]; [done|].
  apply (create_all_acknowledged safe cb (i :: indexes)).
Qed.

Lemma ensureIndexes_all_acknowledged_witness :
  ensureIndexes (Flag true) (Some 9) three_specs
    (replicate (length three_specs) None ++ [])
  = flat_map (fun i => [EnsureIndex (keys i)
                          (<["safe"%string := Flag true]> (options i));
                        Acknowledged None]) three_specs
    ++ done (Some 9) None
  ∧ ensureIndexes (Flag true) (Some 9) [] []
    = match Some 9 with Some f => [NextTick f] | None => [] end.
Proof.
  apply (ensureIndexes_all_acknowledged (Flag true) (Some 9) three_specs []).
  discriminate.
Defined.

Lemma create_unanswered (safe : setting) (cb : option callback)
    (indexes : list index) (k : nat) :
  k < length indexes →
  issued (create safe cb indexes (replicate k None))
    = call_of safe <$> take (S k) indexes
  ∧ completions (create safe cb indexes (replicate k None)) = [].
Proof.
  revert k. induction indexes as [|i indexes IH]; intros k Hk.
  - simpl in Hk. lia.
  - destruct k as [|k]; simpl; [done|].
    destruct (IH k) as [Hi Hc]; [simpl in Hk; lia|].
    by rewrite Hi, Hc.
Qed.

(** X7. While a call is unanswered the sequencer is stuck on it: after [k]
    acknowledgments and no further answer, the calls issued are those of
    the first [k + 1] specifications and there is no ['index']
    notification and no call of the handler. *)
Theorem ensureIndexes_waits_for_the_backend
    (safe : setting) (cb : option callback) (indexes : list index)
    (k : nat) :
  k < length indexes →
  issued (ensureIndexes safe cb indexes (replicate k None))
    = call_of safe <$> take (S k) indexes
  ∧ completions (ensureIndexes safe cb indexes (replicate k None)) = [].
Proof.
  intros Hk. destruct indexes as [|i indexes]; [simpl in Hk; lia|].
  by apply (create_unanswered safe cb (i :: indexes)).
Qed.

Lemma ensureIndexes_waits_for_the_backend_witness :
  issued (ensureIndexes Undefined (Some 9) three_specs (replicate 1 None))
    = call_of Undefined <$> take 2 three_specs
  ∧ completions (ensureIndexes Undefined (Some 9) three_specs
                   (replicate 1 None)) = [].
Proof.
  apply (ensureIndexes_waits_for_the_backend Undefined (Some 9)
           three_specs 1).
  simpl. lia.
Defined.

End IndexSequencerMoreFacts.

Section SaveRoundTripFacts.
Import Lifecycle.

(** What [save] leaves behind, in one equation for both branches. *)
Lemma save_eq (fn : callback) (this : Document) :
  save fn this
  = (length (promises this),
     mkDocument false (isNew this) (removing this) (_id this) (_rev this) []
       (promises this ++ [mkPromise [fn] None])
       (trace this
        ++ [CollectionInsert (length (promises this)); EmitIsNew false])).
Proof.
  unfold save, new_Promise, log, _reset, set_isNew, set_inserting,
    set_promises. simpl.
  destruct (isNew this) eqn:Hnew; simpl; rewrite ?Hnew, <- ?app_assoc; done.
Qed.

(** X8. A save that the backend answers with an error changes neither the
    identifier nor the revision of the entity, and what the outside sees of
    the whole round trip is: the backend call, the ['isNew'] notification
    with [false], the ['isNew'] notification with [true] when the entity
    was new, and one call of the caller's function, with the error. *)
Theorem failed_save_keeps_id_and_calls_back_once
    (this : Document) (fn : callback) (err : error) :
  _id (handleSave (save fn this).1 (SaveError err) (save fn this).2)
    = _id this
  ∧ _rev (handleSave (save fn this).1 (SaveError err) (save fn this).2)
    = _rev this
  ∧ trace (handleSave (save fn this).1 (SaveError err) (save fn this).2)
    = trace this
      ++ [CollectionInsert (length (promises this)); EmitIsNew false]
      ++ (if isNew this then [EmitIsNew true] else [])
      ++ [Called fn (Failed err)].
Proof.
  rewrite save_eq. unfold handleSave, resolve. simpl.
  destruct (isNew this); simpl; rewrite list_lookup_middle by done; simpl;
    rewrite <- ?app_assoc; done.
Qed.

(** X9. A save that the backend answers with an identifier and a revision
    adopts both, leaves the entity not new, and what the outside sees of
    the round trip is: the backend call, the ['isNew'] notification with
    [false], the ['save'] notification, and one call of the caller's
    function, with no error. *)
Theorem successful_save_adopts_id_and_calls_back_once
    (this : Document) (fn : callback) (id rev : string) :
  _id (handleSave (save fn this).1 (SaveOk id rev) (save fn this).2)
    = Some id
  ∧ _rev (handleSave (save fn this).1 (SaveOk id rev) (save fn this).2)
    = Some rev
  ∧ isNew (handleSave (save fn this).1 (SaveOk id rev) (save fn this).2)
    = false
  ∧ trace (handleSave (save fn this).1 (SaveOk id rev) (save fn this).2)
    = trace this
      ++ [CollectionInsert (length (promises this)); EmitIsNew false;
          EmitSave; Called fn Completed].
Proof.
  rewrite save_eq. unfold handleSave, resolve. simpl.
  rewrite list_lookup_middle by done. simpl.
  rewrite <- !app_assoc. done.
Qed.

End SaveRoundTripFacts.

Section CreatorFacts.
Import Creator.

Lemma successes_count_down (docs : list Entity) (c : Z) (k : nat) (b : bool) :
  (Z.of_nat k < c)%Z →
  foldl (save_callback docs) (mkState c b []) (replicate k None)
  = mkState (c - Z.of_nat k) b [].
Proof.
  revert c. induction k as [|k IH]; intros c Hk; simpl.
  - f_equal. lia.
  - replace ((c - 1 =? 0)%Z) with false by (symmetry; apply Z.eqb_neq; lia).
    rewrite IH by lia. f_equal. lia.
Qed.

(** Once the promise is resolved with an error and fewer answers remain
    than the counter holds, nothing more is reported. *)
Lemma after_error_silent (docs : list Entity) (c : Z) (cs : list call)
    (rest : list (option error)) :
  (Z.of_nat (length rest) < c)%Z →
  calls (foldl (save_callback docs) (mkState c true cs) rest) = cs.
Proof.
  revert c. induction rest as [|[e|] rest IH]; intros c Hc; simpl in *.
  - done.
  - apply IH. lia.
  - replace ((c - 1 =? 0)%Z) with false by (symmetry; apply Z.eqb_neq; lia).
    apply IH. lia.
Qed.

(** X10. When every save succeeds, [fn] is called exactly once, with the
    documents of all the arguments in the order of the arguments, and not
    before the last save is answered: after [k] answers there is no call
    yet for [k] less than the number of arguments. *)
Theorem create_reports_when_all_saved (args : list RawRecord) (k : nat) :
  args ≠ [] → k ≤ length args →
  create args (replicate k None)
  = if k =? length args then [FnDocs (mkEntity <$> args)] else [].
Proof.
  intros Hne Hk. unfold create.
  destruct args as [|a args]; [done|].
  destruct (Nat.eqb_spec k (length (a :: args))) as [->|Hlt].
  - change (length (a :: args)) with (S (length args)).
    rewrite replicate_S_end, foldl_app.
    rewrite successes_count_down by lia. simpl.
    replace ((Z.of_nat (S (length args)) - Z.of_nat (length args) - 1 =? 0)%Z)
      with true by (symmetry; apply Z.eqb_eq; lia).
    done.
  - by rewrite successes_count_down by lia.
Qed.

Lemma create_reports_when_all_saved_witness :
  create [∅; ∅] (replicate 2 None)
  = if 2 =? length [∅ : RawRecord; ∅]
    then [FnDocs (mkEntity <$> [∅; ∅])] else [].
Proof.
  apply (create_reports_when_all_saved [∅; ∅] 2).
  - discriminate.
  - simpl. lia.
Defined.

(** X11. When a save fails, [fn] is called exactly once, with the error
    of the first save that fails, whatever the other saves answer and
    whenever they do: it is never called with the documents. *)
Theorem create_reports_first_error_only
    (args : list RawRecord) (k : nat) (e : error)
    (rest : list (option error)) :
  k + S (length rest) ≤ length args →
  create args (replicate k None ++ Some e :: rest) = [FnError e].
Proof.
  intros Hlen. unfold create.
  destruct args as [|a args]; [simpl in Hlen; lia|].
  rewrite foldl_app, successes_count_down by (simpl in *; lia).
  simpl. apply after_error_silent. simpl in *. lia.
Qed.

Lemma create_reports_first_error_only_witness :
  create [∅; ∅; ∅] (replicate 1 None ++ Some "conflict"%string :: [None])
  = [FnError "conflict"].
Proof.
  apply (create_reports_first_error_only [∅; ∅; ∅] 1 "conflict" [None]).
  simpl. lia.
Defined.

End CreatorFacts.

Section FindersFacts.
Import Hydrator Finders.

Lemma foldl_push {A B : Type} (f : A → B) (acc : list B) (l : list A) :
  foldl (fun docs doc => docs ++ [f doc]) acc l = acc ++ (f <$> l).
Proof.
  revert acc. induction l as [|x l IH]; intros acc; simpl.
  - by rewrite app_nil_r.
  - rewrite IH. by rewrite <- app_assoc.
Qed.

Lemma foldl_replace_last {A : Type} (d : A) (l : list A) :
  foldl (fun _ doc => doc) d l = default d (last l).
Proof.
  revert d. induction l as [|x l IH]; intros d; [done|].
  simpl. rewrite IH. destruct l as [|y l]; [done|].
  change (last (x :: y :: l)) with (last (y :: l)).
  destruct (last (y :: l)) eqn:Hlast; [done|].
  by apply last_None in Hlast.
Qed.

Lemma delivered_hydrated (cs : list call) :
  delivered (Hydrated <$> cs) = deliveries cs.
Proof.
  unfold delivered. f_equal. induction cs as [|c cs IH]; [done|].
  simpl. f_equal. exact IH.
Qed.

(** X13. [Model.findById] keeps the shape of its argument from the request
    to the entities: the backend is asked with an array either way; for
    one id the caller gets the entity of the first record of the answer,
    for an array of ids the entities of all the records of the answer, in
    the order of the answer; and on an error of the backend the callback
    is called once, with the error alone. *)
Theorem findById_end_to_end (init : initializer) :
  (∀ id, get_argument (OneId id) = [id])
  ∧ (∀ i err, Model_findById init i (DbError err) = [ReportedError err])
  ∧ (∀ id doc rest,
       delivered (Model_findById init (OneId id) (DbItems (doc :: rest)))
       = [Single (mkEntity doc)])
  ∧ (∀ l res,
       delivered (Model_findById init (ManyIds l) (DbItems res))
       = [Sequence (mkEntity <$> res)]).
Proof.
  repeat split; try done.
  - intros i doc rest. unfold Model_findById, NativeCollection_findById.
    rewrite (foldl_push id). simpl. rewrite delivered_hydrated.
    apply (Model_hydrate_shape init doc []).
  - intros l res. unfold Model_findById, NativeCollection_findById.
    rewrite (foldl_push id). simpl. rewrite delivered_hydrated.
    rewrite list_fmap_id. apply Model_hydrate_always_delivers.
Qed.

(** X14. [Model.findWithView] delivers, in one call, the entities of the
    values of the rows of the view, in the order of the rows: an empty
    array for a view without rows. *)
Theorem findWithView_delivers_row_values
    (init : initializer) (res : list row) :
  delivered (Model_findWithView init (DbItems res))
  = [Sequence (mkEntity <$> (value <$> res))].
Proof.
  unfold Model_findWithView, NativeCollection_findWithView.
  rewrite (foldl_push value). simpl. rewrite delivered_hydrated.
  apply Model_hydrate_always_delivers.
Qed.

(** X15. [Model.findOneWithView] asks the view with [limit] set to 1,
    whatever limit the caller's options held, and delivers one entity: that
    of the last item of the answer, or, when the answer has no item, an
    entity of the empty record (never [null]). *)
Theorem findOneWithView_limits_and_delivers_last
    (init : initializer) (options : option view_options)
    (res : list RawRecord) :
  (Model_findOneWithView init options (DbItems res)).1 !! "limit"%string
    = Some 1%Z
  ∧ delivered (Model_findOneWithView init options (DbItems res)).2
    = [Single (mkEntity (default ∅ (last res)))].
Proof.
  unfold Model_findOneWithView, NativeCollection_findOneWithView. simpl.
  split; [apply lookup_insert_eq|].
  rewrite delivered_hydrated, foldl_replace_last.
  apply (Model_hydrate_shape init _ []).
Qed.

End FindersFacts.

Section ConnectionsFacts.
Import Connections.

(** X16. [open] called with a function as its last argument throws a
    [TypeError] before it stores or opens anything: a callback passed to
    [open] is never called.  Called without one, it stores its arguments,
    makes the server from them, and notifies the listeners of ['open'],
    and nothing else. *)
Theorem open_with_callback_throws :
  (∀ args fn c, open (args ++ [AFunction fn]) c = ThrowsTypeError)
  ∧ (∀ args c,
       is_function (last args) = false →
       ∃ c', open args c = Returns c'
             ∧ connectionOpts c' = Some args
             ∧ db c' = Some (Some args)
             ∧ observed c'
               = observed c ++ (Delivered "open" <$> listeners_of "open" c)).
Proof.
  split.
  - intros args fn c. unfold open. by rewrite last_snoc.
  - intros args c Hlast. unfold open. rewrite Hlast.
    eexists. split; [reflexivity|]. by repeat split.
Qed.

Lemma open_with_callback_throws_witness :
  open ([AString "http://localhost"; ANumber 5984] ++ [AFunction 3])
    (mkConnection ∅ ∅ None None None None []) = ThrowsTypeError
  ∧ ∃ c', open [AString "http://localhost"; ANumber 5984]
            (mkConnection ∅ ∅ None None None None []) = Returns c'
          ∧ connectionOpts c'
            = Some [AString "http://localhost"; ANumber 5984]
          ∧ db c' = Some (Some [AString "http://localhost"; ANumber 5984])
          ∧ observed c'
            = [] ++ (Delivered "open"
                       <$> listeners_of "open"
                             (mkConnection ∅ ∅ None None None None [])).
Proof.
  split.
  - apply (proj1 open_with_callback_throws).
  - apply (proj2 open_with_callback_throws
             [AString "http://localhost"; ANumber 5984]
             (mkConnection ∅ ∅ None None None None [])).
    reflexivity.
Defined.

(** X17. [close] forgets the collections, the models, the options and the
    server, and calls the callback once; the listeners of ['close'] are
    not called, whichever were registered, because the listener table is
    deleted before the event is emitted. *)
Theorem close_notifies_no_listener (callback : option nat) (c : Connection) :
  observed (close callback c)
  = observed c
    ++ match callback with Some fn => [CalledBack fn] | None => [] end
  ∧ collections (close callback c) = ∅
  ∧ models (close callback c) = ∅
  ∧ connectionOpts (close callback c) = None
  ∧ db (close callback c) = None.
Proof.
  unfold close, doClose, emit, call_back. simpl.
  destruct callback; simpl; rewrite app_nil_r; done.
Qed.

(** X18. A connection caches its collections by name: asking again for a
    name gives what the first request gave and changes nothing, whatever
    options the later request carries, and a request for another name in
    between does not disturb it. *)
Theorem collection_is_cached_by_name
    (inherited : string → bool) (n n' : string)
    (o1 o2 o3 : gmap string string) (c : Connection) :
  collection inherited n o2 (collection inherited n o1 c).2
  = collection inherited n o1 c
  ∧ (collection inherited n o3
       (collection inherited n' o2 (collection inherited n o1 c).2).2).1
    = (collection inherited n o1 c).1.
Proof.
  destruct (decide (n' = n)) as [->|Hne];
    unfold collection;
    repeat (case_match; simplify_map_eq; simpl in *; try done).
Qed.

End ConnectionsFacts.

Section MongooseInstanceFacts.
Import MongooseInstance.

Lemma connection_after (ops : list operation) (m : Mongoose) :
  connection (foldl apply m ops)
  = match connections m with
    | c :: _ => c
    | [] => first_created ops
    end.
Proof.
  revert m. induction ops as [|op ops IH]; intros m; simpl.
  - unfold connection. by destruct (connections m).
  - rewrite IH. destruct op as [[c|]|c|fn opts|key v];
      simpl; unfold connect; destruct (connections m); simpl; done.
Qed.

(** X19. The default connection of a Mongoose instance is the argument of
    the first [createConnection] call that was given one, and [undefined]
    until there is such a call: [connect] never sets it, and neither does
    any later [createConnection]. *)
Theorem default_connection_is_first_created (ops : list operation) :
  connection (foldl apply new_Mongoose ops) = first_created ops.
Proof. by rewrite connection_after. Qed.

End MongooseInstanceFacts.

Section BulkRemoveFrameFacts.
Import BulkRemove.

Lemma foldl_set_deleted_absent (docs : list loc)
    (h : gmap loc (gmap string value)) (l : loc) :
  h !! l = None → foldl set_deleted h docs !! l = None.
Proof.
  revert h. induction docs as [|d docs IH]; intros h Hl; [done|].
  simpl. apply IH. destruct (decide (d = l)) as [->|Hne].
  - by rewrite set_deleted_same, Hl.
  - by rewrite set_deleted_other.
Qed.

(** X20. Bulk remove touches nothing but the mark: a document object that
    is not in the sequence is left as it was, a document in the sequence
    keeps the value of every field other than [_deleted], and removing
    the same sequence a second time leaves the objects as the first call
    left them. *)
Theorem bulk_remove_changes_only_the_mark (docs : list loc) (w : world) :
  (∀ l, l ∉ docs → objects (remove docs w) !! l = objects w !! l)
  ∧ (∀ l o k, l ∈ docs → objects w !! l = Some o → k ≠ "_deleted"%string →
       objects (remove docs w) !! l ≫= (fun o' => o' !! k) = o !! k)
  ∧ objects (remove docs (remove docs w)) = objects (remove docs w).
Proof.
  split; [|split].
  - intros l Hl. by apply foldl_set_deleted_frame.
  - intros l o k Hin Hl Hk. unfold remove, bulkRemove. simpl.
    rewrite (foldl_set_deleted_elem docs _ l o Hin Hl). simpl.
    by rewrite lookup_insert_ne.
  - unfold remove, bulkRemove. simpl. apply map_eq. intros l.
    destruct (decide (l ∈ docs)) as [Hin|Hout].
    + destruct (objects w !! l) as [o|] eqn:Hl.
      * rewrite (foldl_set_deleted_marked docs _ l o);
          by rewrite (foldl_set_deleted_elem docs _ l o Hin Hl).
      * rewrite !(foldl_set_deleted_absent docs _ l); try done.
        by apply foldl_set_deleted_absent.
    + by rewrite foldl_set_deleted_frame.
Qed.

End BulkRemoveFrameFacts.

Section HydratorCountFacts.
Import Hydrator.

Lemma init_errors_none (init : initializer) (m : moment)
    (docs : list RawRecord) :
  Forall (fun d => fails init d = false) docs →
  init_errors init m docs = [].
Proof.
  induction 1 as [|d docs Hd _ IH]; [done|].
  rewrite init_errors_cons, IH. unfold fails in Hd.
  by destruct (init d) as [[|] [e|]], m.
Qed.

(** X12. [Model.hydrate] on an array calls the callback once with the
    entities of all the records, and once more, with the error, for every
    record whose initialisation fails; when no initialisation fails the
    one call with the entities is the only call. *)
Theorem Model_hydrate_calls_once_more_than_failures
    (init : initializer) (docs : list RawRecord) :
  length (Model_hydrate init (Many docs))
    = S (length (List.filter (fails init) docs))
  ∧ deliveries (Model_hydrate init (Many docs))
    = [Sequence (mkEntity <$> docs)]
  ∧ (Forall (fun d => fails init d = false) docs →
     Model_hydrate init (Many docs) = [(None, Sequence (mkEntity <$> docs))]).
Proof.
  split; [apply Model_hydrate_calls_count|].
  split; [apply Model_hydrate_always_delivers|].
  intros Hok. unfold Model_hydrate, hydrate_calls.
  by rewrite !init_errors_none.
Qed.

Lemma Model_hydrate_calls_once_more_than_failures_witness :
  length (Model_hydrate init_ok (Many [rec1; rec2]))
    = S (length (List.filter (fails init_ok) [rec1; rec2]))
  ∧ deliveries (Model_hydrate init_ok (Many [rec1; rec2]))
    = [Sequence (mkEntity <$> [rec1; rec2])]
  ∧ Model_hydrate init_ok (Many [rec1; rec2])
    = [(None, Sequence (mkEntity <$> [rec1; rec2]))].
Proof.
  destruct (Model_hydrate_calls_once_more_than_failures init_ok [rec1; rec2])
    as (Hcount & Hdeliver & Hall).
  split; [exact Hcount|split; [exact Hdeliver|]].
  apply Hall. repeat constructor.
Defined.

End HydratorCountFacts.
